(** * A shallow embedding of the CompactSize / transaction codec of
    [src/lib.rs] (rust-week-3-exercises).

    Conventions of the embedding:
    - a [u8] is a [Byte.byte]; the wider unsigned integers ([u16], [u32],
      [u64], [usize]) are [N] with their width written out where the code
      truncates ([as u8], [as u16], [as u32]);
    - a target with a 64-bit [usize] is assumed, so [value as usize] is the
      identity on a [u64];
    - a [Vec<u8>] / [&[u8]] is a [list byte];
    - a decoder returns an [outcome]: [Ok], a [BitcoinError] returned with
      [Err], or [Panic] for a Rust panic (out-of-range index or slice,
      arithmetic overflow in a build with overflow checks). *)

From Stdlib Require Import String Ascii.
From Stdlib Require Import NArith List Lia.
From Stdlib Require Import Strings.Byte.
Import ListNotations.

Open Scope N_scope.

(** ** Errors and the result monad *)

Inductive BitcoinError : Type :=
| InsufficientBytes
| InvalidFormat.

Inductive outcome (A : Type) : Type :=
| Ok (a : A)
| Err (e : BitcoinError)
| Panic.

Arguments Ok {A} a.
Arguments Err {A} e.
Arguments Panic {A}.

(** [let* x := m in k]: Rust's [?] on a [Result], with panics propagated. *)
Definition bind {A B : Type} (m : outcome A) (k : A -> outcome B) : outcome B :=
  match m with
  | Ok a => k a
  | Err e => Err e
  | Panic => Panic
  end.

Notation "'let*' x ':=' m 'in' k" := (bind m (fun x => k))
  (at level 200, x name, m at level 100, k at level 200).
Notation "'let*' ' p ':=' m 'in' k" := (bind m (fun x => match x with p => k end))
  (at level 200, p pattern, m at level 100, k at level 200).

(** ** Machine integers and slices *)

Definition usize_max : N := 2 ^ 64 - 1.
(** [isize::MAX]: no [Vec] or slice is longer. *)
Definition isize_max : N := 2 ^ 63 - 1.

(** [a + b] on [usize].  With overflow checks (debug builds, [cargo test])
    an overflow panics; without them the sum wraps around. *)
Definition add_usize (overflow_checks : bool) (a b : N) : outcome N :=
  if a + b <=? usize_max then Ok (a + b)
  else if overflow_checks then Panic
  else Ok ((a + b) mod 2 ^ 64).

(** [x as u8]. *)
Definition byte_of (x : N) : byte :=
  match Byte.of_N (x mod 256) with
  | Some b => b
  | None => x00
  end.

(** [x.to_le_bytes()] of a [w]-byte unsigned integer. *)
Fixpoint to_le_bytes (w : nat) (x : N) : list byte :=
  match w with
  | O => []
  | S w' => byte_of x :: to_le_bytes w' (N.shiftr x 8)
  end.

(** [uN::from_le_bytes(..)]. *)
Fixpoint from_le_bytes (l : list byte) : N :=
  match l with
  | [] => 0
  | b :: l' => Byte.to_N b + 256 * from_le_bytes l'
  end.

(** [bytes[i]]. *)
Definition index (bytes : list byte) (i : N) : outcome byte :=
  match nth_error bytes (N.to_nat i) with
  | Some b => Ok b
  | None => Panic
  end.

(** [bytes[a..b]]: panics when [a > b] or [b > bytes.len()]. *)
Definition slice (bytes : list byte) (a b : N) : outcome (list byte) :=
  if andb (a <=? b) (b <=? N.of_nat (length bytes)) then
    Ok (firstn (N.to_nat (b - a)) (skipn (N.to_nat a) bytes))
  else Panic.

(** [bytes[a..]]: panics when [a > bytes.len()]. *)
Definition slice_from (bytes : list byte) (a : N) : outcome (list byte) :=
  if a <=? N.of_nat (length bytes) then Ok (skipn (N.to_nat a) bytes)
  else Panic.

Definition len (bytes : list byte) : N := N.of_nat (length bytes).

(** ** CompactSize (lib.rs, lines 5-81) *)

Record CompactSize := mkCompactSize { cs_value : N }.

Definition CompactSize_new (value : N) : CompactSize := mkCompactSize value.

Definition CompactSize_to_bytes (c : CompactSize) : list byte :=
  let v := cs_value c in
  if v <=? 0xFC then [byte_of v]
  else if v <=? 0xFFFF then byte_of 0xFD :: to_le_bytes 2 (v mod 2 ^ 16)
  else if v <=? 0xFFFFFFFF then byte_of 0xFE :: to_le_bytes 4 (v mod 2 ^ 32)
  else byte_of 0xFF :: to_le_bytes 8 v.

Definition CompactSize_from_bytes (bytes : list byte)
  : outcome (CompactSize * N) :=
  match bytes with
  | [] => Err InsufficientBytes
  | _ =>
    let* b0 := index bytes 0 in
    let x := Byte.to_N b0 in
    if x <=? 0xFC then Ok (CompactSize_new x, 1)
    else if x =? 0xFD then
      if len bytes <? 3 then Err InsufficientBytes
      else
        let* b1 := index bytes 1 in
        let* b2 := index bytes 2 in
        Ok (CompactSize_new (from_le_bytes [b1; b2]), 3)
    else if x =? 0xFE then
      if len bytes <? 5 then Err InsufficientBytes
      else
        let* s := slice bytes 1 5 in
        Ok (CompactSize_new (from_le_bytes s), 5)
    else (* x = 0xFF *)
      if len bytes <? 9 then Err InsufficientBytes
      else
        let* s := slice bytes 1 9 in
        Ok (CompactSize_new (from_le_bytes s), 9)
  end.

(** ** Txid and OutPoint (lib.rs, lines 83-148) *)

(** [Txid(pub [u8; 32])]: the list has 32 elements (see [wf_txid]). *)
Record Txid := mkTxid { txid_bytes : list byte }.

Record OutPoint := mkOutPoint { txid : Txid; vout : N }.

Definition OutPoint_new (t : list byte) (vout : N) : OutPoint :=
  mkOutPoint (mkTxid t) vout.

Definition OutPoint_to_bytes (o : OutPoint) : list byte :=
  txid_bytes (txid o) ++ to_le_bytes 4 (vout o).

Definition OutPoint_from_bytes (bytes : list byte) : outcome (OutPoint * N) :=
  if len bytes <? 36 then Err InsufficientBytes
  else
    let* t := slice bytes 0 32 in
    let* v := slice bytes 32 36 in
    Ok (OutPoint_new t (from_le_bytes v), 36).

(** ** Script (lib.rs, lines 150-187) *)

Record Script := mkScript { script_bytes : list byte }.

Definition Script_new (bytes : list byte) : Script := mkScript bytes.

Definition Script_to_bytes (s : Script) : list byte :=
  CompactSize_to_bytes (CompactSize_new (len (script_bytes s))) ++ script_bytes s.

(** The sum [len_bytes + total_len] is evaluated three times in the source
    (the check, the slice end and the returned count); so it is here. *)
Definition Script_from_bytes (ovf : bool) (bytes : list byte)
  : outcome (Script * N) :=
  let* '(len_prefix, len_bytes) := CompactSize_from_bytes bytes in
  let total_len := cs_value len_prefix in
  let* need := add_usize ovf len_bytes total_len in
  if len bytes <? need then Err InsufficientBytes
  else
    let* stop := add_usize ovf len_bytes total_len in
    let* data := slice bytes len_bytes stop in
    let* used := add_usize ovf len_bytes total_len in
    Ok (Script_new data, used).

(** ** TransactionInput (lib.rs, lines 189-231) *)

Record TransactionInput := mkTransactionInput {
  previous_output : OutPoint;
  script_sig : Script;
  sequence : N }.

Definition TransactionInput_new (o : OutPoint) (s : Script) (seq : N)
  : TransactionInput := mkTransactionInput o s seq.

Definition TransactionInput_to_bytes (i : TransactionInput) : list byte :=
  OutPoint_to_bytes (previous_output i) ++ Script_to_bytes (script_sig i)
  ++ to_le_bytes 4 (sequence i).

Definition TransactionInput_from_bytes (ovf : bool) (bytes : list byte)
  : outcome (TransactionInput * N) :=
  let* '(prev_out, prev_len) := OutPoint_from_bytes bytes in
  let* rest := slice_from bytes prev_len in
  let* '(script, script_len) := Script_from_bytes ovf rest in
  let* s := add_usize ovf prev_len script_len in
  let* need := add_usize ovf s 4 in
  if len bytes <? need then Err InsufficientBytes
  else
    let* sq := slice bytes s need in
    Ok (TransactionInput_new prev_out script (from_le_bytes sq), need).

(** ** BitcoinTransaction (lib.rs, lines 233-296) *)

Record BitcoinTransaction := mkBitcoinTransaction {
  version : N;
  inputs : list TransactionInput;
  lock_time : N }.

Definition BitcoinTransaction_new (v : N) (ins : list TransactionInput) (lt : N)
  : BitcoinTransaction := mkBitcoinTransaction v ins lt.

Definition BitcoinTransaction_to_bytes (tx : BitcoinTransaction) : list byte :=
  to_le_bytes 4 (version tx)
  ++ CompactSize_to_bytes (CompactSize_new (N.of_nat (length (inputs tx))))
  ++ flat_map TransactionInput_to_bytes (inputs tx)
  ++ to_le_bytes 4 (lock_time tx).

(** The loop [for _ in 0..input_count.value]: [n] iterations, each decoding
    one input at [bytes[cursor..]], pushing it and advancing the cursor;
    the first failure aborts the loop. *)
Fixpoint read_inputs (ovf : bool) (n : nat) (bytes : list byte) (cursor : N)
  (acc : list TransactionInput) : outcome (list TransactionInput * N) :=
  match n with
  | O => Ok (acc, cursor)
  | S n' =>
    let* rest := slice_from bytes cursor in
    let* '(input, used) := TransactionInput_from_bytes ovf rest in
    let* cursor' := add_usize ovf cursor used in
    read_inputs ovf n' bytes cursor' (acc ++ [input])
  end.

(** [cursor + 4] is evaluated once here; every evaluation in the source has
    the same value. *)
Definition BitcoinTransaction_from_bytes (ovf : bool) (bytes : list byte)
  : outcome (BitcoinTransaction * N) :=
  if len bytes <? 4 then Err InsufficientBytes
  else
    let* v := slice bytes 0 4 in
    let* rest := slice_from bytes 4 in
    let* '(input_count, offset) := CompactSize_from_bytes rest in
    let* offset := add_usize ovf offset 4 in
    let* '(ins, cursor) :=
      read_inputs ovf (N.to_nat (cs_value input_count)) bytes offset [] in
    let* need := add_usize ovf cursor 4 in
    if len bytes <? need then Err InsufficientBytes
    else
      let* lt := slice bytes cursor need in
      Ok (BitcoinTransaction_new (from_le_bytes v) ins (from_le_bytes lt), need).

(** ** The [hex] crate (a dependency: [hex::encode], [hex::decode])

    [hex::encode] writes each byte, in order, as two lowercase digits.
    [hex::decode] fails with [OddLength] on an odd number of characters,
    then reads the characters two by two, failing with
    [InvalidHexCharacter] on the first one outside [0-9a-fA-F]. *)

Definition hex_digit (n : N) : Ascii.ascii :=
  match String.get (N.to_nat n) "0123456789abcdef"%string with
  | Some c => c
  | None => "?"%char
  end.

Fixpoint hex_encode (l : list byte) : String.string :=
  match l with
  | [] => EmptyString
  | b :: l' =>
    String.String (hex_digit (Byte.to_N b / 16))
      (String.String (hex_digit (Byte.to_N b mod 16)) (hex_encode l'))
  end.

Inductive FromHexError :=
| InvalidHexCharacter (c : Ascii.ascii) (index : nat)
| OddLength.

Inductive hex_result :=
| HexOk (bytes : list byte)
| HexErr (e : FromHexError).

(** [val(c, idx)] of the crate. *)
Definition hex_val (c : Ascii.ascii) (idx : nat) : sum N FromHexError :=
  let n := Ascii.N_of_ascii c in
  if andb (48 <=? n) (n <=? 57) then inl (n - 48)
  else if andb (97 <=? n) (n <=? 102) then inl (n - 87)
  else if andb (65 <=? n) (n <=? 70) then inl (n - 55)
  else inr (InvalidHexCharacter c idx).

Fixpoint hex_pairs (s : String.string) (i : nat) : hex_result :=
  match s with
  | String.String c1 (String.String c2 s') =>
    match hex_val c1 (2 * i), hex_val c2 (2 * i + 1) with
    | inl h, inl l =>
      match hex_pairs s' (S i) with
      | HexOk bs => HexOk (byte_of (N.lor (N.shiftl h 4) l) :: bs)
      | HexErr e => HexErr e
      end
    | inr e, _ => HexErr e
    | inl _, inr e => HexErr e
    end
  | _ => HexOk []
  end.

Definition hex_decode (s : String.string) : hex_result :=
  if Nat.odd (String.length s) then HexErr OddLength else hex_pairs s 0.

(** ** Txid text form (lib.rs, lines 86-112) *)

(** The error of the deserializer: [serde::de::Error::custom] of the hex
    error, or of the message of the length check. *)
Inductive DeError :=
| custom_hex (e : FromHexError)
| custom_msg (msg : String.string).

Inductive de_result :=
| DeOk (t : Txid)
| DeErr (e : DeError).

(** [serializer.serialize_str(&hex::encode(self.0))]: the string handed to
    the serializer. *)
Definition Txid_serialize (t : Txid) : String.string := hex_encode (txid_bytes t).

(** [Txid::deserialize], from the string [String::deserialize] produced. *)
Definition Txid_deserialize (s : String.string) : de_result :=
  match hex_decode s with
  | HexErr e => DeErr (custom_hex e)
  | HexOk bytes =>
    if negb (Nat.eqb (length bytes) 32) then DeErr (custom_msg "Txid must be 32 bytes"%string)
    else DeOk (mkTxid bytes)
  end.

(** ** Display for BitcoinTransaction (lib.rs, lines 298-311) *)

Definition dec_digit (n : N) : Ascii.ascii :=
  match String.get (N.to_nat n) "0123456789"%string with
  | Some c => c
  | None => "?"%char
  end.

Fixpoint dec_aux (fuel : nat) (n : N) (acc : String.string) : String.string :=
  match fuel with
  | O => acc
  | S f =>
    let acc' := String.String (dec_digit (n mod 10)) acc in
    if n <? 10 then acc' else dec_aux f (n / 10) acc'
  end.

(** [{}] of an unsigned integer: its decimal digits. *)
Definition dec (n : N) : String.string := dec_aux (S (N.size_nat n)) n EmptyString.

Definition nl : String.string := String.String (Ascii.ascii_of_nat 10) EmptyString.

Definition writeln (line : String.string) : String.string := (line ++ nl)%string.

Definition fmt_input (input : TransactionInput) : String.string :=
  (writeln ("Previous Output Vout: " ++ dec (vout (previous_output input)))
   ++ writeln ("ScriptSig Length: " ++ dec (len (script_bytes (script_sig input))))
   ++ writeln ("ScriptSig: " ++ hex_encode (script_bytes (script_sig input)))
   ++ writeln ("Sequence: " ++ dec (sequence input)))%string.

Definition fmt (tx : BitcoinTransaction) : String.string :=
  (writeln ("Version: " ++ dec (version tx))
   ++ String.concat "" (map fmt_input (inputs tx))
   ++ writeln ("Lock Time: " ++ dec (lock_time tx)))%string.

(** ** Well-formed values: the invariants of the Rust types *)

Definition u32_ok (x : N) : Prop := x < 2 ^ 32.

(** [[u8; 32]]. *)
Definition wf_txid (t : Txid) : Prop := length (txid_bytes t) = 32%nat.

Definition wf_outpoint (o : OutPoint) : Prop := wf_txid (txid o) /\ u32_ok (vout o).

(** A [Vec<u8>] holds at most [isize::MAX] bytes. *)
Definition wf_script (s : Script) : Prop := len (script_bytes s) <= isize_max.

Definition wf_input (i : TransactionInput) : Prop :=
  wf_outpoint (previous_output i) /\ wf_script (script_sig i) /\ u32_ok (sequence i).

(** The encoding of a transaction is itself a [Vec<u8>]. *)
Definition wf_tx (tx : BitcoinTransaction) : Prop :=
  u32_ok (version tx) /\ Forall wf_input (inputs tx) /\ u32_ok (lock_time tx)
  /\ len (BitcoinTransaction_to_bytes tx) <= isize_max.

(** The width table of the spec (section 4.1). *)
Definition width_table (m : N) : N :=
  if m <=? 252 then 1
  else if m <=? 65535 then 3
  else if m <=? 4294967295 then 5
  else 9.

Definition strict_prefix (p l : list byte) : Prop :=
  exists r, r <> [] /\ l = p ++ r.

(** Characters of the text forms. *)
Definition is_hex_digit (c : Ascii.ascii) : bool :=
  existsb (Ascii.eqb c) (list_ascii_of_string "0123456789abcdefABCDEF").

Definition is_lower_hex_digit (c : Ascii.ascii) : bool :=
  existsb (Ascii.eqb c) (list_ascii_of_string "0123456789abcdef").

Definition has_no_newline (s : String.string) : bool :=
  negb (existsb (Ascii.eqb (Ascii.ascii_of_nat 10)) (list_ascii_of_string s)).

(** The rendering as the spec words it (section 6): the lines, in order,
    each written with [writeln]. *)
Definition spec_input_lines (input : TransactionInput) : list String.string :=
  [("Previous Output Vout: " ++ dec (vout (previous_output input)))%string;
   ("ScriptSig Length: " ++ dec (len (script_bytes (script_sig input))))%string;
   ("ScriptSig: " ++ hex_encode (script_bytes (script_sig input)))%string;
   ("Sequence: " ++ dec (sequence input))%string].

Definition spec_lines (tx : BitcoinTransaction) : list String.string :=
  ("Version: " ++ dec (version tx))%string
  :: flat_map spec_input_lines (inputs tx)
  ++ [("Lock Time: " ++ dec (lock_time tx))%string].

(** Lines each followed by a newline, as [writeln!] writes them. *)
Fixpoint render_lines (ls : list String.string) : String.string :=
  match ls with
  | [] => EmptyString
  | l :: ls' => (writeln l ++ render_lines ls')%string
  end.

(** Concrete values. *)

(** The one-input transaction of section 8 of the spec. *)
Definition example_input : TransactionInput :=
  TransactionInput_new (OutPoint_new (repeat x00 32) 0) (Script_new [x51]) 0xFFFFFFFF.

Definition example_tx : BitcoinTransaction := BitcoinTransaction_new 2 [example_input] 0.

Definition empty_tx : BitcoinTransaction := BitcoinTransaction_new 1 [] 0.

(** A CompactSize prefix [FF FF FF FF FF FF FF FF FF] declaring
    [2^64 - 1] body bytes, followed by five bytes. *)
Definition overflow_script_input : list byte := repeat xff 9 ++ repeat x00 5.

(** A prefix [FD E8 03] declaring 1000 body bytes, followed by five bytes. *)
Definition short_script_input : list byte := [xfd; xe8; x03] ++ repeat x00 5.

(** The number of bytes [CompactSize::from_bytes] reads for a given first
    byte: the match arms of lines 53-79. *)
Definition cs_prefix_width (b0 : byte) : N :=
  let x := Byte.to_N b0 in
  if x <=? 0xFC then 1
  else if x =? 0xFD then 3
  else if x =? 0xFE then 5
  else 9.

(** * Lemmas *)

(** The line feed ending each line of the rendering. *)
Definition newline_char : Ascii.ascii := Ascii.ascii_of_nat 10.

(** A decoder result other than [Err InvalidFormat]. *)
Definition not_invalid {A : Type} (m : outcome A) : Prop := m <> Err InvalidFormat.

(** [m_rel] is the result without overflow checks, [m_dbg] the one with
    them: they agree whenever the checked computation does not panic. *)
Definition agrees {A : Type} (m_dbg m_rel : outcome A) : Prop :=
  m_dbg <> Panic -> m_rel = m_dbg.

(** ** Bytes and little-endian integers *)

Lemma to_N_byte_of (x : N) : Byte.to_N (byte_of x) = x mod 256.
Proof.
  unfold byte_of. destruct (Byte.of_N (x mod 256)) as [b|] eqn:E.
  - now apply Byte.to_of_N in E.
  - apply Byte.of_N_None_iff in E.
    pose proof (N.mod_lt x 256). lia.
Qed.

Lemma to_le_bytes_length (w : nat) (x : N) : length (to_le_bytes w x) = w.
Proof. revert x; induction w; intros; simpl; auto. Qed.

Lemma from_to_le_bytes (w : nat) (x : N) :
  from_le_bytes (to_le_bytes w x) = x mod 2 ^ (8 * N.of_nat w).
Proof.
  revert x; induction w as [|w IH]; intros x; cbn [to_le_bytes from_le_bytes].
  - now rewrite N.mod_1_r.
  - rewrite IH, to_N_byte_of, N.shiftr_div_pow2.
    replace (8 * N.of_nat (S w)) with (8 + 8 * N.of_nat w) by lia.
    rewrite N.pow_add_r.
    change (2 ^ 8) with 256.
    now rewrite N.Div0.mod_mul_r.
Qed.

Lemma from_le_bytes_bound (l : list byte) : from_le_bytes l < 2 ^ (8 * len l).
Proof.
  unfold len. induction l as [|b l IH]; cbn [from_le_bytes length].
  - lia.
  - pose proof (Byte.to_N_bounded b).
    replace (8 * N.of_nat (S (length l))) with (8 + 8 * N.of_nat (length l)) by lia.
    rewrite N.pow_add_r. change (2 ^ 8) with 256. nia.
Qed.

Lemma len_app (a b : list byte) : len (a ++ b) = len a + len b.
Proof. unfold len. now rewrite length_app, Nat2N.inj_add. Qed.

Lemma len_cons (b : byte) (l : list byte) : len (b :: l) = 1 + len l.
Proof. unfold len. simpl length. lia. Qed.

Lemma len_to_le_bytes (w : nat) (x : N) : len (to_le_bytes w x) = N.of_nat w.
Proof. unfold len. now rewrite to_le_bytes_length. Qed.

(** ** Slices of a buffer with trailing data *)

Lemma index_app (l r : list byte) (i : N) (b : byte) :
  index l i = Ok b -> index (l ++ r) i = Ok b.
Proof.
  unfold index. destruct (nth_error l (N.to_nat i)) eqn:E; try discriminate.
  intros H. rewrite nth_error_app1; [now rewrite E|].
  apply nth_error_Some. congruence.
Qed.

Lemma slice_ok (l : list byte) (i j : N) :
  i <= j -> j <= len l ->
  slice l i j = Ok (firstn (N.to_nat (j - i)) (skipn (N.to_nat i) l)).
Proof.
  intros H1 H2. unfold slice. unfold len in H2.
  apply N.leb_le in H1, H2. now rewrite H1, H2.
Qed.

Lemma slice_app (l r : list byte) (i j : N) (s : list byte) :
  slice l i j = Ok s -> slice (l ++ r) i j = Ok s.
Proof.
  unfold slice. destruct (andb (i <=? j) (j <=? N.of_nat (length l))) eqn:E;
    try discriminate.
  apply andb_prop in E as [E1 E2]. apply N.leb_le in E1, E2.
  intros H. injection H as <-.
  assert (E3 : (j <=? N.of_nat (length (l ++ r))) = true)
    by (apply N.leb_le; rewrite length_app; lia).
  rewrite (proj2 (N.leb_le _ _) E1), E3. simpl. f_equal.
  rewrite skipn_app, firstn_app.
  rewrite length_skipn.
  replace (N.to_nat (j - i) - (length l - N.to_nat i))%nat with 0%nat by lia.
  simpl. rewrite app_nil_r.
  replace (N.to_nat i - length l)%nat with 0%nat by lia. reflexivity.
Qed.

Lemma slice_from_app (l r : list byte) (i : N) (s : list byte) :
  slice_from l i = Ok s -> slice_from (l ++ r) i = Ok (s ++ r).
Proof.
  unfold slice_from. destruct (i <=? N.of_nat (length l)) eqn:E; try discriminate.
  apply N.leb_le in E. intros H. injection H as <-.
  assert (E3 : (i <=? N.of_nat (length (l ++ r))) = true)
    by (apply N.leb_le; rewrite length_app; lia).
  rewrite E3. f_equal. rewrite skipn_app.
  replace (N.to_nat i - length l)%nat with 0%nat by lia. reflexivity.
Qed.

Lemma ltb_len_app (l r : list byte) (k : N) :
  (len l <? k) = false -> (len (l ++ r) <? k) = false.
Proof. rewrite len_app. intros H. apply N.ltb_ge in H. apply N.ltb_ge. lia. Qed.

(** ** CompactSize *)

Lemma to_N_byte_of_small (x : N) : x < 256 -> Byte.to_N (byte_of x) = x.
Proof. intros H. rewrite to_N_byte_of. now apply N.mod_small. Qed.

Lemma to_le_bytes_2 (x : N) :
  to_le_bytes 2 x = [byte_of x; byte_of (N.shiftr x 8)].
Proof. reflexivity. Qed.

Lemma slice_cons_app (b : byte) (l rest : list byte) :
  slice (b :: l ++ rest) 1 (N.of_nat (S (length l))) = Ok l.
Proof.
  rewrite slice_ok.
  - f_equal. replace (N.to_nat (N.of_nat (S (length l)) - 1)) with (length l) by lia.
    simpl. rewrite firstn_app, firstn_all, PeanoNat.Nat.sub_diag. simpl.
    apply app_nil_r.
  - lia.
  - rewrite len_cons, len_app. unfold len. lia.
Qed.

Lemma CompactSize_decode_FD (b1 b2 : byte) (rest : list byte) :
  CompactSize_from_bytes (byte_of 0xFD :: b1 :: b2 :: rest)
  = Ok (CompactSize_new (from_le_bytes [b1; b2]), 3).
Proof.
  unfold CompactSize_from_bytes. cbn -[len from_le_bytes].
  replace (len (xfd :: b1 :: b2 :: rest) <? 3) with false; [reflexivity|].
  symmetry. apply N.ltb_ge. rewrite !len_cons. lia.
Qed.

Lemma CompactSize_decode_FE (l rest : list byte) :
  length l = 4%nat ->
  CompactSize_from_bytes (byte_of 0xFE :: l ++ rest)
  = Ok (CompactSize_new (from_le_bytes l), 5).
Proof.
  intros Hl. unfold CompactSize_from_bytes. cbn -[len slice from_le_bytes].
  replace (len (xfe :: l ++ rest) <? 5) with false.
  - change 5 with (N.of_nat (S 4)) at 1. rewrite <- Hl, slice_cons_app. reflexivity.
  - symmetry. apply N.ltb_ge. rewrite len_cons, len_app. unfold len. lia.
Qed.

Lemma CompactSize_decode_FF (l rest : list byte) :
  length l = 8%nat ->
  CompactSize_from_bytes (byte_of 0xFF :: l ++ rest)
  = Ok (CompactSize_new (from_le_bytes l), 9).
Proof.
  intros Hl. unfold CompactSize_from_bytes. cbn -[len slice from_le_bytes].
  replace (len (xff :: l ++ rest) <? 9) with false.
  - change 9 with (N.of_nat (S 8)) at 1. rewrite <- Hl, slice_cons_app. reflexivity.
  - symmetry. apply N.ltb_ge. rewrite len_cons, len_app. unfold len. lia.
Qed.

Lemma CompactSize_roundtrip (v : N) (rest : list byte) :
  v < 2 ^ 64 ->
  CompactSize_from_bytes (CompactSize_to_bytes (CompactSize_new v) ++ rest)
  = Ok (CompactSize_new v, width_table v).
Proof.
  intros Hv. unfold CompactSize_to_bytes, width_table. cbn [cs_value CompactSize_new].
  destruct (v <=? 0xFC) eqn:E1; [|destruct (v <=? 0xFFFF) eqn:E2;
    [|destruct (v <=? 0xFFFFFFFF) eqn:E3]].
  - unfold CompactSize_from_bytes; cbn [app index nth_error N.to_nat bind].
    apply N.leb_le in E1. rewrite to_N_byte_of_small by lia.
    now rewrite (proj2 (N.leb_le _ _) E1).
  - apply N.leb_gt in E1. apply N.leb_le in E2.
    rewrite to_le_bytes_2. cbn [app]. rewrite CompactSize_decode_FD.
    rewrite <- to_le_bytes_2, from_to_le_bytes.
    replace (v mod 2 ^ 16 mod 2 ^ (8 * N.of_nat 2)) with v; [reflexivity|].
    rewrite N.mod_small; rewrite N.mod_small; simpl; lia.
  - apply N.leb_gt in E1, E2. apply N.leb_le in E3.
    cbn [app]. rewrite CompactSize_decode_FE by apply to_le_bytes_length.
    rewrite from_to_le_bytes.
    replace (v mod 2 ^ 32 mod 2 ^ (8 * N.of_nat 4)) with v; [reflexivity|].
    rewrite N.mod_small; rewrite N.mod_small; simpl; lia.
  - apply N.leb_gt in E1, E2, E3.
    cbn [app]. rewrite CompactSize_decode_FF by apply to_le_bytes_length.
    rewrite from_to_le_bytes.
    replace (v mod 2 ^ (8 * N.of_nat 8)) with v; [reflexivity|].
    rewrite N.mod_small; simpl; lia.
Qed.

Lemma CompactSize_to_bytes_length (v : N) :
  v < 2 ^ 64 -> len (CompactSize_to_bytes (CompactSize_new v)) = width_table v.
Proof.
  intros Hv. unfold CompactSize_to_bytes, width_table. cbn [cs_value CompactSize_new].
  destruct (v <=? 0xFC); [reflexivity|].
  destruct (v <=? 0xFFFF); [rewrite len_cons, len_to_le_bytes; reflexivity|].
  destruct (v <=? 0xFFFFFFFF); rewrite len_cons, len_to_le_bytes; reflexivity.
Qed.

Lemma CompactSize_decode_short (b0 : byte) (l : list byte) :
  (Byte.to_N b0 = 0xFD /\ len l < 2) \/ (Byte.to_N b0 = 0xFE /\ len l < 4)
  \/ (Byte.to_N b0 = 0xFF /\ len l < 8) ->
  CompactSize_from_bytes (b0 :: l) = Err InsufficientBytes.
Proof.
  intros H. unfold CompactSize_from_bytes. cbn [index nth_error N.to_nat bind].
  rewrite len_cons.
  destruct H as [[-> H]|[[-> H]|[-> H]]].
  - replace (1 + len l <? 3) with true by (symmetry; apply N.ltb_lt; lia). reflexivity.
  - replace (1 + len l <? 5) with true by (symmetry; apply N.ltb_lt; lia). reflexivity.
  - replace (1 + len l <? 9) with true by (symmetry; apply N.ltb_lt; lia). reflexivity.
Qed.

Lemma strict_prefix_len (p l : list byte) : strict_prefix p l -> len p < len l.
Proof.
  intros [r [Hr ->]]. rewrite len_app. destruct r; [congruence|].
  rewrite len_cons. lia.
Qed.

Lemma strict_prefix_cons (b b' : byte) (p l : list byte) :
  strict_prefix (b :: p) (b' :: l) -> b = b' /\ strict_prefix p l.
Proof. intros [r [Hr H]]. injection H as -> ->. split; [reflexivity|]. now exists r. Qed.

Lemma CompactSize_prefix (v : N) (p : list byte) :
  v < 2 ^ 64 -> strict_prefix p (CompactSize_to_bytes (CompactSize_new v)) ->
  CompactSize_from_bytes p = Err InsufficientBytes.
Proof.
  intros Hv Hp. destruct p as [|b0 p]; [reflexivity|].
  unfold CompactSize_to_bytes in Hp. cbn [cs_value CompactSize_new] in Hp.
  destruct (v <=? 0xFC).
  - destruct Hp as [r [Hr H]]. injection H as _ H.
    destruct p, r; simpl in H; congruence.
  - apply CompactSize_decode_short.
    destruct (v <=? 0xFFFF); [|destruct (v <=? 0xFFFFFFFF)];
      apply strict_prefix_cons in Hp as [-> Hp]; apply strict_prefix_len in Hp;
      rewrite len_to_le_bytes in Hp; rewrite to_N_byte_of_small by lia; simpl in Hp; lia.
Qed.

Lemma CompactSize_extend (b r : list byte) (c : CompactSize) (n : N) :
  CompactSize_from_bytes b = Ok (c, n) -> CompactSize_from_bytes (b ++ r) = Ok (c, n).
Proof.
  destruct b as [|b0 bs]; [discriminate|]. intros H.
  unfold CompactSize_from_bytes in *. cbn [app index nth_error N.to_nat bind] in *.
  change (b0 :: bs ++ r) with ((b0 :: bs) ++ r).
  destruct (Byte.to_N b0 <=? 0xFC); [assumption|].
  destruct (Byte.to_N b0 =? 0xFD); [|destruct (Byte.to_N b0 =? 0xFE)];
  (destruct (len (b0 :: bs) <? _) eqn:L; [discriminate|]);
  rewrite (ltb_len_app (b0 :: bs) r _ L).
  - destruct (index (b0 :: bs) 1) as [b1| |] eqn:I1; try discriminate.
    destruct (index (b0 :: bs) 2) as [b2| |] eqn:I2; try discriminate.
    rewrite (index_app _ r _ _ I1), (index_app _ r _ _ I2). exact H.
  - destruct (slice (b0 :: bs) 1 5) as [s| |] eqn:S; try discriminate.
    rewrite (slice_app _ r _ _ _ S). exact H.
  - destruct (slice (b0 :: bs) 1 9) as [s| |] eqn:S; try discriminate.
    rewrite (slice_app _ r _ _ _ S). exact H.
Qed.

(** ** Arithmetic and slices at known offsets *)

Lemma add_usize_ok (ovf : bool) (a b : N) :
  a + b <= usize_max -> add_usize ovf a b = Ok (a + b).
Proof. intros H. unfold add_usize. apply N.leb_le in H. now rewrite H. Qed.

Lemma slice_mid (a b c : list byte) (i j : N) :
  i = len a -> j = len a + len b -> slice (a ++ b ++ c) i j = Ok b.
Proof.
  intros -> ->. rewrite slice_ok.
  - f_equal. unfold len.
    replace (N.to_nat (N.of_nat (length a))) with (length a) by lia.
    replace (N.to_nat (N.of_nat (length a) + N.of_nat (length b) - N.of_nat (length a)))
      with (length b) by lia.
    rewrite skipn_app, skipn_all, PeanoNat.Nat.sub_diag. simpl.
    rewrite firstn_app, firstn_all, PeanoNat.Nat.sub_diag. simpl. apply app_nil_r.
  - lia.
  - rewrite !len_app. lia.
Qed.

Lemma slice_from_mid (a b : list byte) (i : N) :
  i = len a -> slice_from (a ++ b) i = Ok b.
Proof.
  intros ->. unfold slice_from. rewrite length_app.
  replace (len a <=? N.of_nat (length a + length b)) with true
    by (symmetry; apply N.leb_le; unfold len; lia).
  f_equal. unfold len. rewrite Nat2N.id, skipn_app, skipn_all, PeanoNat.Nat.sub_diag.
  reflexivity.
Qed.

Lemma ltb_false (a b : N) : b <= a -> (a <? b) = false.
Proof. intros H. now apply N.ltb_ge. Qed.

Lemma ltb_true (a b : N) : a < b -> (a <? b) = true.
Proof. intros H. now apply N.ltb_lt. Qed.

(** ** OutPoint *)

Lemma OutPoint_to_bytes_length (o : OutPoint) :
  wf_outpoint o -> len (OutPoint_to_bytes o) = 36.
Proof.
  intros [Ht _]. unfold OutPoint_to_bytes. rewrite len_app, len_to_le_bytes.
  unfold len at 1. rewrite Ht. reflexivity.
Qed.

Lemma OutPoint_roundtrip (o : OutPoint) (rest : list byte) :
  wf_outpoint o -> OutPoint_from_bytes (OutPoint_to_bytes o ++ rest) = Ok (o, 36).
Proof.
  intros Hw. pose proof (OutPoint_to_bytes_length o Hw) as L.
  destruct o as [[t] v], Hw as [Ht Hv]. unfold wf_txid, u32_ok in *. cbn in Ht, Hv.
  unfold OutPoint_from_bytes.
  rewrite ltb_false by (rewrite len_app, L; lia).
  unfold OutPoint_to_bytes in *. cbn [txid txid_bytes vout] in *.
  rewrite <- app_assoc.
  rewrite <- (app_nil_l (t ++ _)), slice_mid with (b := t)
    by (unfold len; rewrite ?Ht; reflexivity).
  cbn [app bind].
  rewrite slice_mid by (rewrite ?len_to_le_bytes; unfold len; rewrite ?Ht; reflexivity).
  cbn [bind]. rewrite from_to_le_bytes, N.mod_small by (simpl; lia). reflexivity.
Qed.

Lemma OutPoint_prefix (o : OutPoint) (p : list byte) :
  wf_outpoint o -> strict_prefix p (OutPoint_to_bytes o) ->
  OutPoint_from_bytes p = Err InsufficientBytes.
Proof.
  intros Hw Hp. apply strict_prefix_len in Hp. rewrite OutPoint_to_bytes_length in Hp by auto.
  unfold OutPoint_from_bytes. now rewrite ltb_true.
Qed.

Lemma OutPoint_extend (b r : list byte) (o : OutPoint) (n : N) :
  OutPoint_from_bytes b = Ok (o, n) -> OutPoint_from_bytes (b ++ r) = Ok (o, n).
Proof.
  unfold OutPoint_from_bytes. destruct (len b <? 36) eqn:L; [discriminate|].
  rewrite (ltb_len_app b r _ L).
  destruct (slice b 0 32) as [t| |] eqn:S1; try discriminate.
  rewrite (slice_app _ r _ _ _ S1). cbn [bind].
  destruct (slice b 32 36) as [v| |] eqn:S2; try discriminate.
  now rewrite (slice_app _ r _ _ _ S2).
Qed.

(** ** Script *)

Lemma strict_prefix_app (p a b : list byte) :
  strict_prefix p (a ++ b) ->
  strict_prefix p a \/ exists q, p = a ++ q /\ strict_prefix q b.
Proof.
  intros [r [Hr H]]. apply app_eq_app in H as [l [[Ha Hl]|[Hp Hb]]].
  - destruct l as [|x l].
    + right. exists []. rewrite app_nil_r in Ha. simpl in Hl. split.
      * now rewrite app_nil_r.
      * exists r. split; [exact Hr|]. now rewrite Hl.
    + left. exists (x :: l). split; [discriminate|exact Ha].
  - right. exists l. split; [exact Hp|]. now exists r.
Qed.

Lemma width_table_le (v : N) : width_table v <= 9.
Proof.
  unfold width_table.
  destruct (v <=? 252); [|destruct (v <=? 65535); [|destruct (v <=? 4294967295)]]; lia.
Qed.

Lemma Script_to_bytes_length (s : Script) :
  wf_script s ->
  len (Script_to_bytes s) = width_table (len (script_bytes s)) + len (script_bytes s).
Proof.
  intros Hw. unfold wf_script, isize_max in Hw. unfold Script_to_bytes.
  rewrite len_app, CompactSize_to_bytes_length by lia. reflexivity.
Qed.

Lemma Script_roundtrip (ovf : bool) (s : Script) (rest : list byte) :
  wf_script s ->
  Script_from_bytes ovf (Script_to_bytes s ++ rest) = Ok (s, len (Script_to_bytes s)).
Proof.
  intros Hw. rewrite (Script_to_bytes_length s Hw).
  destruct s as [body]. unfold wf_script, isize_max in Hw. cbn [script_bytes] in *.
  pose proof (width_table_le (len body)) as W.
  pose proof (CompactSize_to_bytes_length (len body) ltac:(lia)) as Lc.
  unfold Script_from_bytes, Script_to_bytes. cbn [script_bytes].
  rewrite <- app_assoc, CompactSize_roundtrip by lia. cbn [bind cs_value CompactSize_new].
  rewrite add_usize_ok by (unfold usize_max; lia). cbn [bind].
  rewrite ltb_false by (rewrite !len_app; lia). cbn [bind].
  rewrite slice_mid by (rewrite ?Lc; reflexivity). reflexivity.
Qed.

Lemma Script_prefix (ovf : bool) (s : Script) (p : list byte) :
  wf_script s -> strict_prefix p (Script_to_bytes s) ->
  Script_from_bytes ovf p = Err InsufficientBytes.
Proof.
  intros Hw Hp. destruct s as [body]. unfold wf_script, isize_max in Hw.
  cbn [script_bytes] in *. unfold Script_to_bytes in Hp. cbn [script_bytes] in Hp.
  pose proof (width_table_le (len body)) as W.
  pose proof (CompactSize_to_bytes_length (len body) ltac:(lia)) as Lc.
  unfold Script_from_bytes.
  apply strict_prefix_app in Hp as [Hp|[q [-> Hq]]].
  - rewrite (CompactSize_prefix (len body) p) by (auto; lia). reflexivity.
  - rewrite CompactSize_roundtrip by lia. cbn [bind cs_value CompactSize_new].
    rewrite add_usize_ok by (unfold usize_max; lia). cbn [bind].
    apply strict_prefix_len in Hq.
    rewrite ltb_true by (rewrite len_app; lia). reflexivity.
Qed.

Lemma Script_extend (ovf : bool) (b r : list byte) (s : Script) (n : N) :
  Script_from_bytes ovf b = Ok (s, n) -> Script_from_bytes ovf (b ++ r) = Ok (s, n).
Proof.
  unfold Script_from_bytes.
  destruct (CompactSize_from_bytes b) as [[c w]| |] eqn:C; try discriminate.
  rewrite (CompactSize_extend _ r _ _ C). cbn [bind].
  destruct (add_usize ovf w (cs_value c)) as [k| |]; try discriminate. cbn [bind].
  destruct (len b <? k) eqn:L; [discriminate|]. rewrite (ltb_len_app b r _ L).
  destruct (slice b w k) as [d| |] eqn:S; try discriminate.
  now rewrite (slice_app _ r _ _ _ S).
Qed.

(** ** TransactionInput *)

Lemma Script_to_bytes_bound (s : Script) :
  wf_script s -> len (Script_to_bytes s) <= 9 + isize_max.
Proof.
  intros Hw. rewrite Script_to_bytes_length by exact Hw.
  pose proof (width_table_le (len (script_bytes s))). unfold wf_script in Hw. lia.
Qed.

Lemma TransactionInput_to_bytes_length (i : TransactionInput) :
  wf_input i ->
  len (TransactionInput_to_bytes i) = 36 + len (Script_to_bytes (script_sig i)) + 4.
Proof.
  intros [Ho _]. unfold TransactionInput_to_bytes.
  rewrite !len_app, OutPoint_to_bytes_length, len_to_le_bytes by exact Ho. lia.
Qed.

Lemma TransactionInput_roundtrip (ovf : bool) (i : TransactionInput) (rest : list byte) :
  wf_input i ->
  TransactionInput_from_bytes ovf (TransactionInput_to_bytes i ++ rest)
  = Ok (i, len (TransactionInput_to_bytes i)).
Proof.
  intros Hw. rewrite (TransactionInput_to_bytes_length i Hw).
  destruct i as [o s q], Hw as [Ho [Hs Hq]]. cbn [previous_output script_sig sequence] in *.
  unfold u32_ok, isize_max, usize_max in *.
  pose proof (Script_to_bytes_bound s Hs) as Bs. unfold isize_max in Bs.
  pose proof (OutPoint_to_bytes_length o Ho) as Lo.
  unfold TransactionInput_from_bytes, TransactionInput_to_bytes.
  cbn [previous_output script_sig sequence].
  rewrite <- !app_assoc, OutPoint_roundtrip by exact Ho. cbn [bind].
  rewrite slice_from_mid by (symmetry; exact Lo). cbn [bind].
  rewrite Script_roundtrip by exact Hs. cbn [bind].
  rewrite add_usize_ok by (unfold usize_max; lia). cbn [bind].
  rewrite add_usize_ok by (unfold usize_max; lia). cbn [bind].
  rewrite ltb_false by (rewrite !len_app, len_to_le_bytes, Lo; lia). cbn [bind].
  rewrite (app_assoc (OutPoint_to_bytes o)), slice_mid
    by (rewrite ?len_app, ?len_to_le_bytes, ?Lo; reflexivity).
  cbn [bind]. rewrite from_to_le_bytes, N.mod_small by (simpl; lia). reflexivity.
Qed.

Lemma TransactionInput_prefix (ovf : bool) (i : TransactionInput) (p : list byte) :
  wf_input i -> strict_prefix p (TransactionInput_to_bytes i) ->
  TransactionInput_from_bytes ovf p = Err InsufficientBytes.
Proof.
  intros Hw Hp. destruct i as [o s q], Hw as [Ho [Hs Hq]].
  cbn [previous_output script_sig sequence] in *.
  pose proof (Script_to_bytes_bound s Hs) as Bs. unfold isize_max in Bs.
  pose proof (OutPoint_to_bytes_length o Ho) as Lo.
  unfold TransactionInput_to_bytes in Hp. cbn [previous_output script_sig sequence] in Hp.
  unfold TransactionInput_from_bytes.
  apply strict_prefix_app in Hp as [Hp|[p1 [-> Hp1]]].
  - now rewrite (OutPoint_prefix o p Ho Hp).
  - rewrite OutPoint_roundtrip by exact Ho. cbn [bind].
    rewrite slice_from_mid by (symmetry; exact Lo). cbn [bind].
    apply strict_prefix_app in Hp1 as [Hp1|[p2 [-> Hp2]]].
    + now rewrite (Script_prefix ovf s p1 Hs Hp1).
    + rewrite Script_roundtrip by exact Hs. cbn [bind].
      rewrite add_usize_ok by (unfold usize_max; lia). cbn [bind].
      rewrite add_usize_ok by (unfold usize_max; lia). cbn [bind].
      apply strict_prefix_len in Hp2. rewrite len_to_le_bytes in Hp2.
      rewrite ltb_true by (rewrite !len_app, Lo; simpl in Hp2; lia). reflexivity.
Qed.

Lemma TransactionInput_extend (ovf : bool) (b r : list byte) (i : TransactionInput) (n : N) :
  TransactionInput_from_bytes ovf b = Ok (i, n) ->
  TransactionInput_from_bytes ovf (b ++ r) = Ok (i, n).
Proof.
  unfold TransactionInput_from_bytes.
  destruct (OutPoint_from_bytes b) as [[o k]| |] eqn:O; try discriminate.
  rewrite (OutPoint_extend _ r _ _ O). cbn [bind].
  destruct (slice_from b k) as [rest| |] eqn:S1; try discriminate.
  rewrite (slice_from_app _ r _ _ S1). cbn [bind].
  destruct (Script_from_bytes ovf rest) as [[s m]| |] eqn:Sc; try discriminate.
  rewrite (Script_extend ovf _ r _ _ Sc). cbn [bind].
  destruct (add_usize ovf k m) as [t| |]; try discriminate. cbn [bind].
  destruct (add_usize ovf t 4) as [u| |]; try discriminate. cbn [bind].
  destruct (len b <? u) eqn:L; [discriminate|]. rewrite (ltb_len_app b r _ L).
  destruct (slice b t u) as [d| |] eqn:S2; try discriminate.
  now rewrite (slice_app _ r _ _ _ S2).
Qed.

(** ** The input loop of BitcoinTransaction::from_bytes *)

Lemma skipn_N_add (a b : N) (l : list byte) :
  skipn (N.to_nat (a + b)) l = skipn (N.to_nat b) (skipn (N.to_nat a) l).
Proof. rewrite skipn_skipn. f_equal. lia. Qed.

Lemma len_skipn (c : N) (l : list byte) : len (skipn (N.to_nat c) l) = len l - c.
Proof. unfold len. rewrite length_skipn. lia. Qed.

Lemma slice_from_ok (bytes : list byte) (c : N) :
  c <= len bytes -> slice_from bytes c = Ok (skipn (N.to_nat c) bytes).
Proof. intros H. unfold slice_from. apply N.leb_le in H. unfold len in H. now rewrite H. Qed.

Lemma read_inputs_ok (ovf : bool) (l : list TransactionInput) (bytes rest : list byte)
  (c : N) (acc : list TransactionInput) :
  Forall wf_input l ->
  skipn (N.to_nat c) bytes = flat_map TransactionInput_to_bytes l ++ rest ->
  c <= len bytes -> len bytes <= usize_max ->
  read_inputs ovf (length l) bytes c acc
  = Ok (acc ++ l, c + len (flat_map TransactionInput_to_bytes l)).
Proof.
  revert c acc. induction l as [|i l IH]; intros c acc Hw Hs Hc Hb.
  - cbn. now rewrite app_nil_r, N.add_0_r.
  - inversion Hw as [|? ? Hi Hl]; subst. cbn [length read_inputs flat_map] in *.
    rewrite slice_from_ok by exact Hc. cbn [bind].
    rewrite Hs, <- app_assoc, TransactionInput_roundtrip by exact Hi. cbn [bind].
    assert (Hlen : len (skipn (N.to_nat c) bytes) = len bytes - c) by apply len_skipn.
    rewrite Hs, !len_app in Hlen.
    rewrite add_usize_ok by lia. cbn [bind].
    rewrite IH; auto.
    + rewrite <- app_assoc, len_app. f_equal. f_equal. lia.
    + rewrite skipn_N_add, Hs, <- app_assoc. unfold len at 1.
      rewrite Nat2N.id, skipn_app, skipn_all, PeanoNat.Nat.sub_diag. reflexivity.
    + lia.
Qed.

Lemma read_inputs_prefix (ovf : bool) (l : list TransactionInput) (bytes : list byte)
  (c : N) (acc : list TransactionInput) :
  Forall wf_input l ->
  strict_prefix (skipn (N.to_nat c) bytes) (flat_map TransactionInput_to_bytes l) ->
  c <= len bytes -> len bytes <= usize_max ->
  read_inputs ovf (length l) bytes c acc = Err InsufficientBytes.
Proof.
  revert c acc. induction l as [|i l IH]; intros c acc Hw Hs Hc Hb.
  - destruct Hs as [r [Hr H]]. cbn in H. symmetry in H.
    apply app_eq_nil in H as [_ H]. contradiction.
  - inversion Hw as [|? ? Hi Hl]; subst. cbn [length read_inputs flat_map] in *.
    rewrite slice_from_ok by exact Hc. cbn [bind].
    assert (Hlen : len (skipn (N.to_nat c) bytes) = len bytes - c) by apply len_skipn.
    apply strict_prefix_app in Hs as [Hs|[q [Hq Hs]]].
    + now rewrite (TransactionInput_prefix ovf i _ Hi Hs).
    + rewrite Hq, TransactionInput_roundtrip by exact Hi. cbn [bind].
      rewrite Hq, len_app in Hlen.
      rewrite add_usize_ok by lia. cbn [bind].
      apply IH; auto.
      * rewrite skipn_N_add, Hq. unfold len at 1.
        rewrite Nat2N.id, skipn_app, skipn_all, PeanoNat.Nat.sub_diag. exact Hs.
      * lia.
Qed.

Lemma read_inputs_extend (ovf : bool) (n : nat) (b r : list byte) (c : N)
  (acc ins : list TransactionInput) (k : N) :
  read_inputs ovf n b c acc = Ok (ins, k) -> read_inputs ovf n (b ++ r) c acc = Ok (ins, k).
Proof.
  revert c acc. induction n as [|n IH]; intros c acc H; cbn [read_inputs] in *; [exact H|].
  destruct (slice_from b c) as [s| |] eqn:S; try discriminate.
  rewrite (slice_from_app _ r _ _ S). cbn [bind] in *.
  destruct (TransactionInput_from_bytes ovf s) as [[i u]| |] eqn:T; try discriminate.
  rewrite (TransactionInput_extend ovf _ r _ _ T). cbn [bind] in *.
  destruct (add_usize ovf c u) as [c'| |]; try discriminate. cbn [bind] in *.
  now apply IH.
Qed.

(** ** BitcoinTransaction *)

Lemma TransactionInput_to_bytes_nonempty (i : TransactionInput) :
  1 <= len (TransactionInput_to_bytes i).
Proof.
  unfold TransactionInput_to_bytes, OutPoint_to_bytes.
  rewrite !len_app, len_to_le_bytes. lia.
Qed.

Lemma inputs_count_le (l : list TransactionInput) :
  N.of_nat (length l) <= len (flat_map TransactionInput_to_bytes l).
Proof.
  induction l as [|i l IH]; cbn [length flat_map]; [reflexivity|].
  rewrite len_app. pose proof (TransactionInput_to_bytes_nonempty i). lia.
Qed.

Lemma BitcoinTransaction_to_bytes_split (tx : BitcoinTransaction) :
  len (BitcoinTransaction_to_bytes tx)
  = 4 + len (CompactSize_to_bytes (CompactSize_new (N.of_nat (length (inputs tx)))))
    + len (flat_map TransactionInput_to_bytes (inputs tx)) + 4.
Proof. unfold BitcoinTransaction_to_bytes. rewrite !len_app, !len_to_le_bytes. lia. Qed.

Lemma BitcoinTransaction_roundtrip (ovf : bool) (tx : BitcoinTransaction) (rest : list byte) :
  wf_tx tx -> len (BitcoinTransaction_to_bytes tx ++ rest) <= usize_max ->
  BitcoinTransaction_from_bytes ovf (BitcoinTransaction_to_bytes tx ++ rest)
  = Ok (tx, len (BitcoinTransaction_to_bytes tx)).
Proof.
  intros [Hv [Hins [Hlt Hlen]]] Hb.
  pose proof (BitcoinTransaction_to_bytes_split tx) as L.
  destruct tx as [v ins lt]. cbn [version inputs lock_time] in *.
  unfold u32_ok, isize_max, usize_max in *.
  pose proof (inputs_count_le ins) as Ci.
  set (cs := CompactSize_to_bytes (CompactSize_new (N.of_nat (length ins)))) in *.
  set (F := flat_map TransactionInput_to_bytes ins) in *.
  assert (Lc : len cs = width_table (N.of_nat (length ins)))
    by (apply CompactSize_to_bytes_length; lia).
  pose proof (width_table_le (N.of_nat (length ins))) as W.
  unfold BitcoinTransaction_from_bytes, BitcoinTransaction_to_bytes in *.
  cbn [version inputs lock_time] in *. fold cs F in Hb, Hlen |- *.
  rewrite <- !app_assoc in *.
  assert (HF : len F <= 2 ^ 63) by (rewrite !len_app in Hlen; lia).
  rewrite ltb_false by (rewrite !len_app, !len_to_le_bytes; lia).
  rewrite <- (app_nil_l (to_le_bytes 4 v ++ _)), slice_mid
    by (rewrite ?len_to_le_bytes; reflexivity).
  rewrite app_nil_l. cbn [bind].
  rewrite slice_from_mid by (rewrite len_to_le_bytes; reflexivity). cbn [bind].
  unfold cs at 1. rewrite CompactSize_roundtrip by lia. cbn [bind cs_value CompactSize_new].
  rewrite add_usize_ok by (unfold usize_max; lia). cbn [bind].
  rewrite Nat2N.id. rewrite read_inputs_ok with (rest := to_le_bytes 4 lt ++ rest); auto.
  - cbn [bind app]. fold F. rewrite add_usize_ok by (unfold usize_max; rewrite !len_app in Hb; lia).
    cbn [bind]. rewrite ltb_false by (rewrite !len_app, !len_to_le_bytes; lia).
    rewrite (app_assoc (to_le_bytes 4 v)), (app_assoc (to_le_bytes 4 v ++ cs)), slice_mid
      by (rewrite ?len_app, ?len_to_le_bytes, ?Lc; lia).
    cbn [bind]. rewrite !from_to_le_bytes, !N.mod_small by (simpl; lia).
    f_equal. f_equal. rewrite !len_app, !len_to_le_bytes. lia.
  - rewrite (app_assoc (to_le_bytes 4 v)).
    replace (N.to_nat (width_table (N.of_nat (length ins)) + 4))
      with (length (to_le_bytes 4 v ++ cs)) by (rewrite length_app, to_le_bytes_length;
      unfold len in Lc; lia).
    rewrite skipn_app, skipn_all, PeanoNat.Nat.sub_diag. reflexivity.
  - rewrite !len_app, len_to_le_bytes. lia.
Qed.

Lemma BitcoinTransaction_prefix (ovf : bool) (tx : BitcoinTransaction) (p : list byte) :
  wf_tx tx -> strict_prefix p (BitcoinTransaction_to_bytes tx) ->
  BitcoinTransaction_from_bytes ovf p = Err InsufficientBytes.
Proof.
  intros [Hv [Hins [Hlt Hlen]]] Hp.
  pose proof (strict_prefix_len _ _ Hp) as Lp.
  destruct tx as [v ins lt]. cbn [version inputs lock_time] in *.
  unfold u32_ok, isize_max in *.
  pose proof (inputs_count_le ins) as Ci.
  set (cs := CompactSize_to_bytes (CompactSize_new (N.of_nat (length ins)))) in *.
  set (F := flat_map TransactionInput_to_bytes ins) in *.
  assert (Lc : len cs = width_table (N.of_nat (length ins)))
    by (apply CompactSize_to_bytes_length; unfold BitcoinTransaction_to_bytes in Hlen;
        cbn [inputs] in Hlen; fold F in Hlen; rewrite !len_app in Hlen; lia).
  pose proof (width_table_le (N.of_nat (length ins))) as W.
  unfold BitcoinTransaction_from_bytes.
  unfold BitcoinTransaction_to_bytes in Hp, Hlen, Lp. cbn [version inputs lock_time] in *.
  fold cs F in Hp, Hlen, Lp.
  assert (Hn : N.of_nat (length ins) < 2 ^ 64)
    by (rewrite !len_app in Hlen; lia).
  assert (Hb : len p <= usize_max) by (unfold usize_max; lia).
  apply strict_prefix_app in Hp as [Hp|[q [-> Hq]]].
  - apply strict_prefix_len in Hp. rewrite len_to_le_bytes in Hp.
    now rewrite ltb_true by (simpl in Hp; lia).
  - rewrite ltb_false by (rewrite len_app, len_to_le_bytes; lia).
    rewrite <- (app_nil_l (to_le_bytes 4 v ++ q)), slice_mid
      by (rewrite ?len_to_le_bytes; reflexivity).
    rewrite app_nil_l. cbn [bind].
    rewrite slice_from_mid by (rewrite len_to_le_bytes; reflexivity). cbn [bind].
    apply strict_prefix_app in Hq as [Hq|[q2 [-> Hq2]]].
    + unfold cs in Hq. rewrite (CompactSize_prefix _ _ Hn Hq). reflexivity.
    + unfold cs at 1. rewrite CompactSize_roundtrip by lia.
      cbn [bind cs_value CompactSize_new].
      rewrite add_usize_ok by (unfold usize_max; lia). cbn [bind].
      rewrite Nat2N.id.
      assert (Sk : skipn (N.to_nat (width_table (N.of_nat (length ins)) + 4))
                     (to_le_bytes 4 v ++ cs ++ q2) = q2).
      { rewrite app_assoc.
        replace (N.to_nat (width_table (N.of_nat (length ins)) + 4))
          with (length (to_le_bytes 4 v ++ cs)) by (rewrite length_app, to_le_bytes_length;
          unfold len in Lc; lia).
        rewrite skipn_app, skipn_all, PeanoNat.Nat.sub_diag. reflexivity. }
      assert (Lq : len (to_le_bytes 4 v ++ cs ++ q2) = 4 + len cs + len q2)
        by (rewrite !len_app, len_to_le_bytes; lia).
      apply strict_prefix_app in Hq2 as [Hq2|[q3 [-> Hq3]]].
      * rewrite read_inputs_prefix; auto.
        -- now rewrite Sk.
        -- rewrite Lq. lia.
      * rewrite read_inputs_ok with (rest := q3); auto.
        -- cbn [bind app]. fold F. rewrite add_usize_ok by (rewrite !len_app, !len_to_le_bytes in Hlen; unfold usize_max; lia). cbn [bind].
           apply strict_prefix_len in Hq3. rewrite len_to_le_bytes in Hq3.
           rewrite ltb_true; [reflexivity|].
           rewrite Lq, len_app, Lc. simpl in Hq3. lia.
        -- rewrite Lq, len_app. lia.
Qed.

Lemma BitcoinTransaction_extend (ovf : bool) (b r : list byte) (tx : BitcoinTransaction)
  (n : N) :
  BitcoinTransaction_from_bytes ovf b = Ok (tx, n) ->
  BitcoinTransaction_from_bytes ovf (b ++ r) = Ok (tx, n).
Proof.
  unfold BitcoinTransaction_from_bytes.
  destruct (len b <? 4) eqn:L; [discriminate|]. rewrite (ltb_len_app b r _ L).
  destruct (slice b 0 4) as [v| |] eqn:S1; try discriminate.
  rewrite (slice_app _ r _ _ _ S1). cbn [bind].
  destruct (slice_from b 4) as [rest| |] eqn:S2; try discriminate.
  rewrite (slice_from_app _ r _ _ S2). cbn [bind].
  destruct (CompactSize_from_bytes rest) as [[c w]| |] eqn:C; try discriminate.
  rewrite (CompactSize_extend _ r _ _ C). cbn [bind].
  destruct (add_usize ovf w 4) as [o| |]; try discriminate. cbn [bind].
  destruct (read_inputs ovf (N.to_nat (cs_value c)) b o []) as [[ins k]| |] eqn:R;
    try discriminate.
  rewrite (read_inputs_extend ovf _ _ r _ _ _ _ R). cbn [bind].
  destruct (add_usize ovf k 4) as [u| |]; try discriminate. cbn [bind].
  destruct (len b <? u) eqn:L2; [discriminate|]. rewrite (ltb_len_app b r _ L2).
  destruct (slice b k u) as [t| |] eqn:S3; try discriminate.
  now rewrite (slice_app _ r _ _ _ S3).
Qed.

(** ** The hex text form *)

Lemma hex_encode_length (l : list byte) : String.length (hex_encode l) = (2 * length l)%nat.
Proof. induction l as [|b l IH]; simpl; [reflexivity|]. rewrite IH. lia. Qed.

Lemma hex_byte_roundtrip (b : byte) (i j : nat) :
  hex_val (hex_digit (Byte.to_N b / 16)) i = inl (Byte.to_N b / 16)
  /\ hex_val (hex_digit (Byte.to_N b mod 16)) j = inl (Byte.to_N b mod 16)
  /\ byte_of (N.lor (N.shiftl (Byte.to_N b / 16) 4) (Byte.to_N b mod 16)) = b.
Proof. destruct b; vm_compute; repeat split. Qed.

Lemma hex_byte_lower (b : byte) :
  is_lower_hex_digit (hex_digit (Byte.to_N b / 16)) = true
  /\ is_lower_hex_digit (hex_digit (Byte.to_N b mod 16)) = true.
Proof. destruct b; vm_compute; split; reflexivity. Qed.

Lemma hex_pairs_encode (l : list byte) (i : nat) :
  hex_pairs (hex_encode l) i = HexOk l.
Proof.
  revert i. induction l as [|b l IH]; intros i; [reflexivity|].
  cbn [hex_encode hex_pairs].
  destruct (hex_byte_roundtrip b (2 * i) (2 * i + 1)) as [H1 [H2 H3]].
  rewrite H1, H2, IH, H3. reflexivity.
Qed.

Lemma hex_decode_encode (l : list byte) : hex_decode (hex_encode l) = HexOk l.
Proof.
  unfold hex_decode. rewrite hex_encode_length, PeanoNat.Nat.odd_mul.
  simpl. apply hex_pairs_encode.
Qed.

Lemma hex_encode_lower (l : list byte) (c : Ascii.ascii) :
  In c (list_ascii_of_string (hex_encode l)) -> is_lower_hex_digit c = true.
Proof.
  induction l as [|b l IH]; simpl; [tauto|].
  destruct (hex_byte_lower b) as [H1 H2].
  intros [<-|[<-|H]]; auto.
Qed.

Lemma hex_encode_substring (l : list byte) (i : nat) :
  (i < length l)%nat ->
  String.substring (2 * i) 2 (hex_encode l)
  = String.String (hex_digit (Byte.to_N (nth i l x00) / 16))
      (String.String (hex_digit (Byte.to_N (nth i l x00) mod 16)) EmptyString).
Proof.
  revert i. induction l as [|b l IH]; intros i Hi; simpl in Hi; [lia|].
  destruct i as [|i].
  - simpl. now destruct (hex_encode l).
  - replace (2 * S i)%nat with (S (S (2 * i))) by lia.
    simpl. apply IH. lia.
Qed.

Lemma hex_val_digit (c : Ascii.ascii) (i : nat) (n : N) :
  hex_val c i = inl n -> is_hex_digit c = true.
Proof.
  destruct c as [[] [] [] [] [] [] [] []]; vm_compute; intros H;
    first [reflexivity | discriminate H].
Qed.

Lemma hex_pairs_digits (n : nat) (s : String.string) (i : nat) (bs : list byte) :
  (String.length s <= n)%nat -> Nat.even (String.length s) = true ->
  hex_pairs s i = HexOk bs ->
  forall c, In c (list_ascii_of_string s) -> is_hex_digit c = true.
Proof.
  revert s i bs. induction n as [|n IH]; intros s i bs Hn He Hp c Hc.
  - destruct s; simpl in *; [tauto | lia].
  - destruct s as [|c1 [|c2 s']]; simpl in Hc; [tauto| discriminate He |].
    cbn [hex_pairs] in Hp.
    destruct (hex_val c1 (2 * i)) as [h|e] eqn:E1; [|discriminate].
    destruct (hex_val c2 (2 * i + 1)) as [l|e] eqn:E2; [|discriminate].
    destruct (hex_pairs s' (S i)) as [bs'|e] eqn:E3; [|discriminate].
    destruct Hc as [<-|[<-|Hc]].
    + exact (hex_val_digit _ _ _ E1).
    + exact (hex_val_digit _ _ _ E2).
    + simpl in Hn, He. apply (IH s' (S i) bs'); auto. lia.
Qed.

Lemma hex_decode_digits (s : String.string) (bs : list byte) :
  hex_decode s = HexOk bs ->
  forall c, In c (list_ascii_of_string s) -> is_hex_digit c = true.
Proof.
  unfold hex_decode. destruct (Nat.odd (String.length s)) eqn:O; [discriminate|].
  intros H. apply (hex_pairs_digits (String.length s) s 0 bs); auto.
  rewrite <- PeanoNat.Nat.negb_odd, O. reflexivity.
Qed.

(** ** The decimal form and the line structure of the rendering *)

Lemma dec_digit_not_newline (n : N) : dec_digit n <> newline_char.
Proof.
  unfold dec_digit. destruct (N.to_nat n) as [|k]; [discriminate|].
  do 9 (destruct k as [|k]; [discriminate|]). simpl. discriminate.
Qed.

Lemma dec_aux_no_newline (fuel : nat) (n : N) (acc : String.string) :
  (forall c, In c (list_ascii_of_string acc) -> c <> newline_char) ->
  forall c, In c (list_ascii_of_string (dec_aux fuel n acc)) -> c <> newline_char.
Proof.
  revert n acc. induction fuel as [|f IH]; intros n acc Hacc; cbn [dec_aux]; [exact Hacc|].
  assert (H : forall c, In c (list_ascii_of_string
                (String.String (dec_digit (n mod 10)) acc)) -> c <> newline_char).
  { intros c [<-|Hc]; [apply dec_digit_not_newline | now apply Hacc]. }
  destruct (n <? 10); [exact H|]. now apply IH.
Qed.

Lemma has_no_newline_spec (s : String.string) :
  (forall c, In c (list_ascii_of_string s) -> c <> newline_char) -> has_no_newline s = true.
Proof.
  unfold has_no_newline. intros H. apply Bool.negb_true_iff.
  destruct (existsb _ _) eqn:E; [|reflexivity].
  apply existsb_exists in E as [c [Hc Heq]]. apply Ascii.eqb_eq in Heq.
  exfalso. apply (H c Hc). now rewrite <- Heq.
Qed.

Lemma list_ascii_append (a b : String.string) :
  list_ascii_of_string (a ++ b) = list_ascii_of_string a ++ list_ascii_of_string b.
Proof. induction a as [|c a IH]; simpl; [reflexivity|]. now rewrite IH. Qed.

Lemma label_no_newline (label v : String.string) :
  (forall c, In c (list_ascii_of_string label) -> c <> newline_char) ->
  (forall c, In c (list_ascii_of_string v) -> c <> newline_char) ->
  has_no_newline (label ++ v) = true.
Proof.
  intros H1 H2. apply has_no_newline_spec. rewrite list_ascii_append.
  intros c Hc. apply in_app_or in Hc as [Hc|Hc]; auto.
Qed.

Lemma dec_no_newline (n : N) :
  forall c, In c (list_ascii_of_string (dec n)) -> c <> newline_char.
Proof. apply dec_aux_no_newline. simpl. tauto. Qed.

Lemma hex_encode_no_newline (l : list byte) :
  forall c, In c (list_ascii_of_string (hex_encode l)) -> c <> newline_char.
Proof.
  intros c Hc. apply hex_encode_lower in Hc. intros ->. discriminate Hc.
Qed.

Lemma str_app_nil_r (a : String.string) : (a ++ EmptyString)%string = a.
Proof. induction a as [|c a IH]; simpl; [reflexivity|]. now rewrite IH. Qed.

Lemma str_app_assoc (a b c : String.string) : (a ++ (b ++ c))%string = ((a ++ b) ++ c)%string.
Proof. induction a as [|x a IH]; simpl; [reflexivity|]. now rewrite IH. Qed.

Lemma concat_empty_cons (x : String.string) (xs : list String.string) :
  String.concat "" (x :: xs) = (x ++ String.concat "" xs)%string.
Proof. destruct xs; simpl; [now rewrite str_app_nil_r | reflexivity]. Qed.

Lemma render_lines_app (a b : list String.string) :
  render_lines (a ++ b) = (render_lines a ++ render_lines b)%string.
Proof.
  induction a as [|x a IH]; cbn [app render_lines]; [reflexivity|].
  now rewrite IH, str_app_assoc.
Qed.

Lemma fmt_inputs_lines (ins : list TransactionInput) :
  String.concat "" (map fmt_input ins) = render_lines (flat_map spec_input_lines ins).
Proof.
  induction ins as [|i ins IH]; [reflexivity|].
  cbn [map flat_map]. rewrite concat_empty_cons, IH, render_lines_app. f_equal.
  unfold fmt_input, spec_input_lines. cbn [render_lines].
  now rewrite !str_app_nil_r, !str_app_assoc.
Qed.

Lemma spec_lines_no_newline (tx : BitcoinTransaction) :
  forallb has_no_newline (spec_lines tx) = true.
Proof.
  assert (Lbl : forall label : String.string, has_no_newline label = true ->
            forall c, In c (list_ascii_of_string label) -> c <> newline_char).
  { intros label H c Hc ->. unfold has_no_newline in H. apply Bool.negb_true_iff in H.
    assert (E : existsb (Ascii.eqb (Ascii.ascii_of_nat 10)) (list_ascii_of_string label) = true)
      by (apply existsb_exists; exists newline_char; split; [exact Hc| apply Ascii.eqb_refl]).
    congruence. }
  unfold spec_lines. cbn [forallb]. apply andb_true_intro. split.
  { apply label_no_newline; [now apply Lbl | apply dec_no_newline]. }
  rewrite forallb_app. apply andb_true_intro. split.
  - apply forallb_forall. intros x Hx. apply in_flat_map in Hx as [i [_ Hx]].
    unfold spec_input_lines in Hx.
    destruct Hx as [<-|[<-|[<-|[<-|[]]]]]; apply label_no_newline;
      try (now apply Lbl); try apply dec_no_newline; apply hex_encode_no_newline.
  - cbn [forallb]. rewrite Bool.andb_true_r.
    apply label_no_newline; [now apply Lbl | apply dec_no_newline].
Qed.

(** ** No binary decoder returns [InvalidFormat] *)

Lemma bind_not_invalid {A B : Type} (m : outcome A) (k : A -> outcome B) :
  not_invalid m -> (forall a, not_invalid (k a)) -> not_invalid (bind m k).
Proof.
  unfold not_invalid. destruct m as [a|[]|]; simpl; intros H1 H2; auto; try discriminate.
Qed.

Lemma index_not_invalid (l : list byte) (i : N) : not_invalid (index l i).
Proof. unfold not_invalid, index. destruct (nth_error _ _); discriminate. Qed.

Lemma slice_not_invalid (l : list byte) (i j : N) : not_invalid (slice l i j).
Proof. unfold not_invalid, slice. destruct (andb _ _); discriminate. Qed.

Lemma slice_from_not_invalid (l : list byte) (i : N) : not_invalid (slice_from l i).
Proof. unfold not_invalid, slice_from. destruct (_ <=? _); discriminate. Qed.

Lemma add_usize_not_invalid (ovf : bool) (a b : N) : not_invalid (add_usize ovf a b).
Proof. unfold not_invalid, add_usize. destruct (_ <=? _), ovf; discriminate. Qed.

Create HintDb not_invalid.
#[local] Hint Resolve index_not_invalid slice_not_invalid slice_from_not_invalid
  add_usize_not_invalid : not_invalid.

Ltac not_invalid_tac :=
  repeat first
    [ apply bind_not_invalid;
        [ solve [eauto with not_invalid]
        | match goal with
          | |- forall _ : _ * _, _ => intros []
          | |- _ => intros ?
          end ]
    | match goal with
      | |- not_invalid (if ?c then _ else _) => destruct c
      | |- not_invalid (match ?x with _ => _ end) => destruct x
      end
    | solve [unfold not_invalid; discriminate]
    | solve [eauto with not_invalid] ].

Lemma CompactSize_not_invalid (b : list byte) : not_invalid (CompactSize_from_bytes b).
Proof. unfold CompactSize_from_bytes. not_invalid_tac. Qed.
#[local] Hint Resolve CompactSize_not_invalid : not_invalid.

Lemma OutPoint_not_invalid (b : list byte) : not_invalid (OutPoint_from_bytes b).
Proof. unfold OutPoint_from_bytes. not_invalid_tac. Qed.
#[local] Hint Resolve OutPoint_not_invalid : not_invalid.

Lemma Script_not_invalid (ovf : bool) (b : list byte) : not_invalid (Script_from_bytes ovf b).
Proof. unfold Script_from_bytes. not_invalid_tac. Qed.
#[local] Hint Resolve Script_not_invalid : not_invalid.

Lemma TransactionInput_not_invalid (ovf : bool) (b : list byte) :
  not_invalid (TransactionInput_from_bytes ovf b).
Proof. unfold TransactionInput_from_bytes. not_invalid_tac. Qed.
#[local] Hint Resolve TransactionInput_not_invalid : not_invalid.

Lemma read_inputs_not_invalid (ovf : bool) (n : nat) (b : list byte) (c : N)
  (acc : list TransactionInput) : not_invalid (read_inputs ovf n b c acc).
Proof.
  revert c acc. induction n as [|n IH]; intros c acc; cbn [read_inputs]; not_invalid_tac.
Qed.
#[local] Hint Resolve read_inputs_not_invalid : not_invalid.

Lemma BitcoinTransaction_not_invalid (ovf : bool) (b : list byte) :
  not_invalid (BitcoinTransaction_from_bytes ovf b).
Proof. unfold BitcoinTransaction_from_bytes. not_invalid_tac. Qed.

(** * The claims *)

Lemma firstn_strict_prefix (l : list byte) (k : nat) :
  (1 <= k <= length l)%nat -> strict_prefix (firstn (length l - k) l) l.
Proof.
  intros Hk. exists (skipn (length l - k) l). split.
  - intros H. apply (f_equal (@length byte)) in H. rewrite length_skipn in H. simpl in H. lia.
  - symmetry. apply firstn_skipn.
Qed.

(** C1: for each magnitude of the set {0, 1, 252, 253, 65535, 65536,
    4294967295, 4294967296, 2^64-1}, decoding the CompactSize encoding
    succeeds with the magnitude and the width of the table of section 4.1. *)
Theorem C1_compactsize_roundtrip_widths :
  Forall (fun m => CompactSize_from_bytes (CompactSize_to_bytes (CompactSize_new m))
                   = Ok (CompactSize_new m, width_table m))
    [0; 1; 252; 253; 65535; 65536; 4294967295; 4294967296; 2 ^ 64 - 1].
Proof.
  repeat apply Forall_cons; try apply Forall_nil;
    rewrite <- (app_nil_r (CompactSize_to_bytes _)); apply CompactSize_roundtrip; lia.
Qed.

(** C2 (code bug): the bounds check of [Script::from_bytes] computes
    [len_bytes + total_len] without guarding against overflow.  On the buffer
    [FF FF FF FF FF FF FF FF FF 00 00 00 00 00] the prefix decodes to
    (2^64 - 1, 9) and the buffer is shorter than 9 + (2^64 - 1), yet the
    decoder panics instead of failing with [InsufficientBytes], both with
    overflow checks (the sum panics) and without them (the sum wraps to 8,
    the check passes and the slice [9..8] panics). *)
Theorem C2_script_length_overflow_panics :
  CompactSize_from_bytes overflow_script_input = Ok (CompactSize_new (2 ^ 64 - 1), 9)
  /\ len overflow_script_input < 9 + (2 ^ 64 - 1)
  /\ Script_from_bytes true overflow_script_input = Panic
  /\ Script_from_bytes false overflow_script_input = Panic.
Proof. vm_compute. repeat split; reflexivity. Qed.

(** The example of the spec: a prefix declaring 1000 bytes followed by five
    bytes fails with [InsufficientBytes]. *)
Lemma Script_declared_1000_short (ovf : bool) :
  Script_from_bytes ovf short_script_input = Err InsufficientBytes.
Proof. destruct ovf; vm_compute; reflexivity. Qed.

(** C3: for every well-formed CompactSize, OutPoint, Script,
    TransactionInput and BitcoinTransaction, decoding its encoding with its
    last k bytes removed (1 <= k <= length of the encoding) fails with
    [InsufficientBytes]: no panic, no success. *)
Theorem C3_truncation_insufficient_bytes :
  (forall v k, v < 2 ^ 64 ->
     let e := CompactSize_to_bytes (CompactSize_new v) in
     (1 <= k <= length e)%nat ->
     CompactSize_from_bytes (firstn (length e - k) e) = Err InsufficientBytes)
  /\ (forall o k, wf_outpoint o ->
     let e := OutPoint_to_bytes o in
     (1 <= k <= length e)%nat ->
     OutPoint_from_bytes (firstn (length e - k) e) = Err InsufficientBytes)
  /\ (forall ovf s k, wf_script s ->
     let e := Script_to_bytes s in
     (1 <= k <= length e)%nat ->
     Script_from_bytes ovf (firstn (length e - k) e) = Err InsufficientBytes)
  /\ (forall ovf i k, wf_input i ->
     let e := TransactionInput_to_bytes i in
     (1 <= k <= length e)%nat ->
     TransactionInput_from_bytes ovf (firstn (length e - k) e) = Err InsufficientBytes)
  /\ (forall ovf tx k, wf_tx tx ->
     let e := BitcoinTransaction_to_bytes tx in
     (1 <= k <= length e)%nat ->
     BitcoinTransaction_from_bytes ovf (firstn (length e - k) e) = Err InsufficientBytes).
Proof.
  repeat split.
  - intros v k Hv e Hk. apply (CompactSize_prefix v); auto.
    now apply firstn_strict_prefix.
  - intros o k Hw e Hk. apply (OutPoint_prefix o); auto.
    now apply firstn_strict_prefix.
  - intros ovf s k Hw e Hk. apply (Script_prefix ovf s); auto.
    now apply firstn_strict_prefix.
  - intros ovf i k Hw e Hk. apply (TransactionInput_prefix ovf i); auto.
    now apply firstn_strict_prefix.
  - intros ovf tx k Hw e Hk. apply (BitcoinTransaction_prefix ovf tx); auto.
    now apply firstn_strict_prefix.
Qed.

(** C4: for every well-formed transaction, decoding its encoding succeeds
    with the same transaction (same version, lock_time and inputs in the
    same order) and consumes the whole encoding. *)
Theorem C4_transaction_roundtrip (ovf : bool) (tx : BitcoinTransaction) :
  wf_tx tx ->
  BitcoinTransaction_from_bytes ovf (BitcoinTransaction_to_bytes tx)
  = Ok (tx, len (BitcoinTransaction_to_bytes tx)).
Proof.
  intros Hw. rewrite <- (app_nil_r (BitcoinTransaction_to_bytes tx)) at 1.
  rewrite BitcoinTransaction_roundtrip; auto.
  destruct Hw as [_ [_ [_ H]]]. rewrite app_nil_r. unfold isize_max, usize_max in *. lia.
Qed.

(** C5: [FD 01 00] decodes to magnitude 1 with 3 bytes consumed, although
    the encoder writes 1 as the single byte [01]. *)
Theorem C5_non_minimal_accepted :
  CompactSize_from_bytes [xfd; x01; x00] = Ok (CompactSize_new 1, 3)
  /\ CompactSize_to_bytes (CompactSize_new 1) = [x01]
  /\ CompactSize_to_bytes (CompactSize_new 1) <> [xfd; x01; x00].
Proof. vm_compute. repeat split; congruence. Qed.

(** C6 (code bug, same defect as C2): the binary decoders never return
    [InvalidFormat] (lemmas [*_not_invalid] above), but they do not always
    either succeed or fail with [InsufficientBytes]: on the overflowing
    script length of C2, [Script::from_bytes] and the decoders built on it
    panic. *)
Theorem C6_decoders_panic_on_overflowing_length (ovf : bool) :
  Script_from_bytes ovf overflow_script_input = Panic
  /\ TransactionInput_from_bytes ovf (repeat x00 36 ++ overflow_script_input) = Panic
  /\ BitcoinTransaction_from_bytes ovf
       ([x01; x00; x00; x00; x01] ++ repeat x00 36 ++ overflow_script_input) = Panic.
Proof. destruct ovf; vm_compute; repeat split; reflexivity. Qed.

(** C7: version 1, no inputs and lock_time 0 encode to the nine bytes
    01 00 00 00 00 00 00 00 00, which decode back to the same transaction
    with 9 bytes consumed. *)
Theorem C7_empty_transaction (ovf : bool) :
  BitcoinTransaction_to_bytes empty_tx = [x01; x00; x00; x00; x00; x00; x00; x00; x00]
  /\ BitcoinTransaction_from_bytes ovf [x01; x00; x00; x00; x00; x00; x00; x00; x00]
     = Ok (empty_tx, 9).
Proof. destruct ovf; vm_compute; split; reflexivity. Qed.

(** C8: the text form of a [Txid] is its 32 bytes as 64 lowercase hex
    digits, two per byte and in byte order (no separator, no byte-order
    flip); reading a string back fails with a format error when it contains
    a non-hex character or when its decoded length is not 32, and succeeds
    with the decoded 32 bytes otherwise. *)
Theorem C8_txid_text_form :
  (forall t, wf_txid t ->
     String.length (Txid_serialize t) = 64%nat
     /\ forallb is_lower_hex_digit (list_ascii_of_string (Txid_serialize t)) = true
     /\ (forall i, (i < 32)%nat ->
           String.substring (2 * i) 2 (Txid_serialize t)
           = String.String (hex_digit (Byte.to_N (nth i (txid_bytes t) x00) / 16))
               (String.String (hex_digit (Byte.to_N (nth i (txid_bytes t) x00) mod 16))
                  EmptyString))
     /\ hex_decode (Txid_serialize t) = HexOk (txid_bytes t))
  /\ (forall s, existsb (fun c => negb (is_hex_digit c)) (list_ascii_of_string s) = true ->
        exists e, Txid_deserialize s = DeErr e)
  /\ (forall s bs, hex_decode s = HexOk bs -> length bs <> 32%nat ->
        exists e, Txid_deserialize s = DeErr e)
  /\ (forall s bs, hex_decode s = HexOk bs -> length bs = 32%nat ->
        Txid_deserialize s = DeOk (mkTxid bs)).
Proof.
  split; [|split; [|split]].
  - intros [t] Ht. unfold wf_txid in Ht. cbn [txid_bytes] in *. unfold Txid_serialize.
    cbn [txid_bytes]. split; [|split; [|split]].
    + rewrite hex_encode_length, Ht. reflexivity.
    + apply forallb_forall. intros c Hc. now apply hex_encode_lower in Hc.
    + intros i Hi. apply hex_encode_substring. lia.
    + apply hex_decode_encode.
  - intros s Hs. unfold Txid_deserialize.
    destruct (hex_decode s) as [bs|e] eqn:D; [|now exists (custom_hex e)].
    exfalso. apply existsb_exists in Hs as [c [Hc Hn]].
    rewrite (hex_decode_digits s bs D c Hc) in Hn. discriminate.
  - intros s bs D Hl. unfold Txid_deserialize. rewrite D.
    apply PeanoNat.Nat.eqb_neq in Hl. rewrite Hl. simpl. eexists. reflexivity.
  - intros s bs D Hl. unfold Txid_deserialize. rewrite D.
    apply PeanoNat.Nat.eqb_eq in Hl. rewrite Hl. reflexivity.
Qed.

(** C9: the rendering of every transaction is the lines [Version: _], then
    per input [Previous Output Vout: _], [ScriptSig Length: _],
    [ScriptSig: _] (lowercase hex) and [Sequence: _], then
    [Lock Time: _], each ended by a newline and none containing one; the
    example transaction of section 8 renders as the six lines shown there. *)
Theorem C9_display_lines :
  (forall tx, fmt tx = render_lines (spec_lines tx)
              /\ forallb has_no_newline (spec_lines tx) = true)
  /\ fmt example_tx
     = render_lines ["Version: 2"; "Previous Output Vout: 0"; "ScriptSig Length: 1";
                     "ScriptSig: 51"; "Sequence: 4294967295"; "Lock Time: 0"]%string.
Proof.
  split.
  - intros tx. split; [|apply spec_lines_no_newline].
    unfold fmt, spec_lines. cbn [render_lines].
    rewrite render_lines_app, fmt_inputs_lines. cbn [render_lines].
    now rewrite str_app_nil_r.
  - vm_compute. reflexivity.
Qed.

(** C10: a successful decode only depends on the bytes it consumed: any
    bytes appended to the buffer leave the result and the count unchanged,
    for each of the five decoders. *)
Theorem C10_trailing_bytes_ignored :
  (forall b r c n, CompactSize_from_bytes b = Ok (c, n) ->
     CompactSize_from_bytes (b ++ r) = Ok (c, n))
  /\ (forall b r o n, OutPoint_from_bytes b = Ok (o, n) ->
     OutPoint_from_bytes (b ++ r) = Ok (o, n))
  /\ (forall ovf b r s n, Script_from_bytes ovf b = Ok (s, n) ->
     Script_from_bytes ovf (b ++ r) = Ok (s, n))
  /\ (forall ovf b r i n, TransactionInput_from_bytes ovf b = Ok (i, n) ->
     TransactionInput_from_bytes ovf (b ++ r) = Ok (i, n))
  /\ (forall ovf b r tx n, BitcoinTransaction_from_bytes ovf b = Ok (tx, n) ->
     BitcoinTransaction_from_bytes ovf (b ++ r) = Ok (tx, n)).
Proof.
  split; [|split; [|split; [|split]]]; intros.
  - now apply CompactSize_extend.
  - now apply OutPoint_extend.
  - now apply Script_extend.
  - now apply TransactionInput_extend.
  - now apply BitcoinTransaction_extend.
Qed.

(** * Instances of the claims at concrete values *)

Lemma C3_truncation_insufficient_bytes_witness :
  253 < 2 ^ 64 /\ wf_outpoint (previous_output example_input)
  /\ wf_script (script_sig example_input) /\ wf_input example_input /\ wf_tx example_tx
  /\ CompactSize_from_bytes (firstn 2 (CompactSize_to_bytes (CompactSize_new 253)))
     = Err InsufficientBytes
  /\ OutPoint_from_bytes (firstn 35 (OutPoint_to_bytes (previous_output example_input)))
     = Err InsufficientBytes
  /\ Script_from_bytes true (firstn 1 (Script_to_bytes (script_sig example_input)))
     = Err InsufficientBytes
  /\ TransactionInput_from_bytes true (firstn 41 (TransactionInput_to_bytes example_input))
     = Err InsufficientBytes
  /\ BitcoinTransaction_from_bytes true (firstn 45 (BitcoinTransaction_to_bytes example_tx))
     = Err InsufficientBytes.
Proof.
  assert (Ho : wf_outpoint (previous_output example_input))
    by (split; [reflexivity | vm_compute; reflexivity]).
  assert (Hs : wf_script (script_sig example_input)) by (vm_compute; discriminate).
  assert (Hi : wf_input example_input)
    by (split; [exact Ho | split; [exact Hs | vm_compute; reflexivity]]).
  assert (Ht : wf_tx example_tx).
  { split; [vm_compute; reflexivity|]. split; [constructor; [exact Hi | constructor]|].
    split; [vm_compute; reflexivity | vm_compute; discriminate]. }
  destruct C3_truncation_insufficient_bytes as [H1 [H2 [H3 [H4 H5]]]].
  split; [vm_compute; reflexivity|]. do 4 (split; [assumption|]).
  split; [exact (H1 253 1%nat ltac:(vm_compute; reflexivity) ltac:(vm_compute; lia))|].
  split; [exact (H2 _ 1%nat Ho ltac:(vm_compute; lia))|].
  split; [exact (H3 true _ 2%nat Hs ltac:(vm_compute; lia))|].
  split; [exact (H4 true _ 4%nat Hi ltac:(vm_compute; lia))|].
  exact (H5 true _ 5%nat Ht ltac:(vm_compute; lia)).
Defined.

Lemma C4_transaction_roundtrip_witness :
  wf_tx example_tx
  /\ BitcoinTransaction_from_bytes false (BitcoinTransaction_to_bytes example_tx)
     = Ok (example_tx, len (BitcoinTransaction_to_bytes example_tx)).
Proof.
  assert (Ht : wf_tx example_tx).
  { split; [vm_compute; reflexivity|].
    split; [repeat constructor; vm_compute; first [reflexivity | discriminate]|].
    split; [vm_compute; reflexivity | vm_compute; discriminate]. }
  split; [exact Ht | exact (C4_transaction_roundtrip false example_tx Ht)].
Defined.

Lemma C8_txid_text_form_witness :
  wf_txid (previous_output example_input).(txid)
  /\ String.length (Txid_serialize (previous_output example_input).(txid)) = 64%nat
  /\ (exists e, Txid_deserialize "0g"%string = DeErr e)
  /\ (exists e, Txid_deserialize "00"%string = DeErr e)
  /\ Txid_deserialize (hex_encode (repeat x01 32)) = DeOk (mkTxid (repeat x01 32)).
Proof.
  destruct C8_txid_text_form as [H1 [H2 [H3 H4]]].
  assert (Hw : wf_txid (previous_output example_input).(txid)) by reflexivity.
  split; [exact Hw|].
  split; [exact (proj1 (H1 _ Hw))|].
  split; [exact (H2 "0g"%string ltac:(vm_compute; reflexivity))|].
  split; [exact (H3 "00"%string [x00] ltac:(vm_compute; reflexivity) ltac:(discriminate))|].
  exact (H4 (hex_encode (repeat x01 32)) (repeat x01 32)
    ltac:(vm_compute; reflexivity) ltac:(reflexivity)).
Defined.

Lemma C10_trailing_bytes_ignored_witness :
  CompactSize_from_bytes [x01] = Ok (CompactSize_new 1, 1)
  /\ CompactSize_from_bytes ([x01] ++ [x02]) = Ok (CompactSize_new 1, 1)
  /\ OutPoint_from_bytes (repeat x00 36 ++ [x02])
     = Ok (OutPoint_new (repeat x00 32) 0, 36)
  /\ Script_from_bytes true ([x01; x51] ++ [x02]) = Ok (Script_new [x51], 2)
  /\ TransactionInput_from_bytes true (TransactionInput_to_bytes example_input ++ [x02])
     = Ok (example_input, 42)
  /\ BitcoinTransaction_from_bytes true (BitcoinTransaction_to_bytes example_tx ++ [x02])
     = Ok (example_tx, 51).
Proof.
  destruct C10_trailing_bytes_ignored as [H1 [H2 [H3 [H4 H5]]]].
  split; [vm_compute; reflexivity|].
  split; [exact (H1 [x01] [x02] _ _ ltac:(vm_compute; reflexivity))|].
  split; [exact (H2 (repeat x00 36) [x02] _ _ ltac:(vm_compute; reflexivity))|].
  split; [exact (H3 true [x01; x51] [x02] _ _ ltac:(vm_compute; reflexivity))|].
  split; [exact (H4 true (TransactionInput_to_bytes example_input) [x02] _ _ ltac:(vm_compute; reflexivity))|].
  exact (H5 true (BitcoinTransaction_to_bytes example_tx) [x02] _ _ ltac:(vm_compute; reflexivity)).
Defined.

(** * Further properties of the codec *)

(** ** Helpers *)

Lemma firstn_add_skipn (n m : nat) (l : list byte) :
  firstn (n + m) l = firstn n l ++ firstn m (skipn n l).
Proof.
  revert l. induction n as [|n IH]; intros l; [reflexivity|].
  destruct l as [|b l]; simpl; [now destruct m|]. now rewrite IH.
Qed.

Lemma to_from_le_bytes (l : list byte) : to_le_bytes (length l) (from_le_bytes l) = l.
Proof.
  induction l as [|b l IH]; [reflexivity|]. cbn [length to_le_bytes from_le_bytes].
  pose proof (Byte.to_N_bounded b) as Hb.
  assert (E1 : byte_of (Byte.to_N b + 256 * from_le_bytes l) = b).
  { unfold byte_of.
    replace ((Byte.to_N b + 256 * from_le_bytes l) mod 256) with (Byte.to_N b).
    - now rewrite Byte.of_to_N.
    - apply (N.mod_unique _ _ (from_le_bytes l)); lia. }
  assert (E2 : N.shiftr (Byte.to_N b + 256 * from_le_bytes l) 8 = from_le_bytes l).
  { rewrite N.shiftr_div_pow2. change (2 ^ 8) with 256.
    symmetry. apply (N.div_unique _ _ _ (Byte.to_N b)); lia. }
  now rewrite E1, E2, IH.
Qed.

Lemma slice_length (l s : list byte) (i j : N) :
  slice l i j = Ok s -> len s = j - i.
Proof.
  unfold slice. destruct (andb (i <=? j) (j <=? N.of_nat (length l))) eqn:E;
    [|discriminate].
  apply andb_prop in E as [E1 E2]. apply N.leb_le in E1, E2.
  intros H. injection H as <-. unfold len. rewrite length_firstn, length_skipn. lia.
Qed.

Lemma from_le_bytes_lt (l : list byte) (k : N) :
  len l <= k -> from_le_bytes l < 2 ^ (8 * k).
Proof.
  intros H. pose proof (from_le_bytes_bound l) as B.
  assert (2 ^ (8 * len l) <= 2 ^ (8 * k)) by (apply N.pow_le_mono_r; lia). lia.
Qed.

Lemma pow_32_64 : 2 ^ (8 * 2) < 2 ^ 64 /\ 2 ^ (8 * 4) < 2 ^ 64 /\ 2 ^ (8 * 8) = 2 ^ 64.
Proof. vm_compute. repeat split; reflexivity. Qed.

(** The outcome of [CompactSize::from_bytes] on every buffer: an empty or
    too short buffer gives [InsufficientBytes]; otherwise the decode
    succeeds with a [u64] value and consumes [cs_prefix_width] bytes. *)
Lemma CompactSize_decode_cases (b : list byte) :
  match b with
  | [] => CompactSize_from_bytes b = Err InsufficientBytes
  | b0 :: _ =>
    if len b <? cs_prefix_width b0 then CompactSize_from_bytes b = Err InsufficientBytes
    else exists c, CompactSize_from_bytes b = Ok (c, cs_prefix_width b0)
                   /\ cs_value c < 2 ^ 64
  end.
Proof.
  destruct b as [|b0 l]; [reflexivity|].
  pose proof (Byte.to_N_bounded b0) as Hb. pose proof pow_32_64 as [P2 [P4 P8]].
  unfold CompactSize_from_bytes, cs_prefix_width. cbn [index nth_error N.to_nat bind].
  destruct (Byte.to_N b0 <=? 0xFC) eqn:E1.
  { rewrite ltb_false by (rewrite len_cons; lia). eexists; split; [reflexivity|].
    cbn [cs_value CompactSize_new]. lia. }
  destruct (Byte.to_N b0 =? 0xFD) eqn:E2.
  { destruct (len (b0 :: l) <? 3) eqn:L; [reflexivity|]. apply N.ltb_ge in L.
    destruct l as [|b1 [|b2 l]]; try (unfold len in L; simpl in L; lia).
    cbn [index nth_error N.to_nat Pos.to_nat Pos.iter_op Nat.add bind].
    eexists; split; [reflexivity|]. cbn [cs_value CompactSize_new].
    pose proof (from_le_bytes_lt [b1; b2] 2 ltac:(reflexivity)). lia. }
  destruct (Byte.to_N b0 =? 0xFE) eqn:E3.
  { destruct (len (b0 :: l) <? 5) eqn:L; [reflexivity|]. apply N.ltb_ge in L.
    destruct (slice (b0 :: l) 1 5) as [s| |] eqn:S;
      [| unfold slice in S; destruct andb; discriminate
       | rewrite slice_ok in S by lia; discriminate].
    cbn [bind]. eexists; split; [reflexivity|]. cbn [cs_value CompactSize_new].
    pose proof (from_le_bytes_lt s 4 ltac:(rewrite (slice_length _ _ _ _ S); lia)). lia. }
  destruct (len (b0 :: l) <? 9) eqn:L; [reflexivity|]. apply N.ltb_ge in L.
  destruct (slice (b0 :: l) 1 9) as [s| |] eqn:S;
    [| unfold slice in S; destruct andb; discriminate
     | rewrite slice_ok in S by lia; discriminate].
  cbn [bind]. eexists; split; [reflexivity|]. cbn [cs_value CompactSize_new].
  pose proof (from_le_bytes_lt s 8 ltac:(rewrite (slice_length _ _ _ _ S); lia)). lia.
Qed.

Lemma cs_prefix_width_range (b0 : byte) : 1 <= cs_prefix_width b0 <= 9.
Proof.
  unfold cs_prefix_width.
  destruct (_ <=? _); [|destruct (_ =? _); [|destruct (_ =? _)]]; lia.
Qed.

Lemma CompactSize_ok_facts (b : list byte) (c : CompactSize) (w : N) :
  CompactSize_from_bytes b = Ok (c, w) ->
  1 <= w <= 9 /\ w <= len b /\ cs_value c < 2 ^ 64.
Proof.
  intros H. pose proof (CompactSize_decode_cases b) as D.
  destruct b as [|b0 l]; [congruence|].
  pose proof (cs_prefix_width_range b0).
  destruct (len (b0 :: l) <? cs_prefix_width b0) eqn:L; [congruence|].
  apply N.ltb_ge in L. destruct D as [c' [D Hc]]. rewrite D in H.
  injection H as <- <-. lia.
Qed.

Lemma CompactSize_no_panic (b : list byte) : CompactSize_from_bytes b <> Panic.
Proof.
  pose proof (CompactSize_decode_cases b) as D.
  destruct b as [|b0 l]; [congruence|].
  destruct (len (b0 :: l) <? cs_prefix_width b0); [congruence|].
  destruct D as [c [D _]]. congruence.
Qed.

(** The outcome of [OutPoint::from_bytes] on every buffer. *)
Lemma OutPoint_decode_cases (b : list byte) :
  if len b <? 36 then OutPoint_from_bytes b = Err InsufficientBytes
  else exists o, OutPoint_from_bytes b = Ok (o, 36) /\ wf_outpoint o
                 /\ OutPoint_to_bytes o = firstn 36 b.
Proof.
  unfold OutPoint_from_bytes. destruct (len b <? 36) eqn:L; [reflexivity|].
  apply N.ltb_ge in L. unfold len in L.
  rewrite !slice_ok by (unfold len; lia). cbn [bind].
  eexists; split; [reflexivity|].
  replace (N.to_nat (32 - 0)) with 32%nat by reflexivity.
  replace (N.to_nat (36 - 32)) with 4%nat by reflexivity.
  replace (N.to_nat 0) with 0%nat by reflexivity.
  replace (N.to_nat 32) with 32%nat by reflexivity. change (skipn 0 b) with b.
  assert (L4 : length (firstn 4 (skipn 32 b)) = 4%nat)
    by (rewrite length_firstn, length_skipn; lia).
  split; [split|].
  - unfold wf_txid. cbn [txid OutPoint_new txid_bytes]. rewrite length_firstn. lia.
  - unfold u32_ok. cbn [vout OutPoint_new].
    apply (from_le_bytes_lt _ 4). unfold len. rewrite length_firstn. lia.
  - unfold OutPoint_to_bytes, OutPoint_new. cbn [txid vout txid_bytes].
    pose proof (to_from_le_bytes (firstn 4 (skipn 32 b))) as T. rewrite L4 in T.
    rewrite T.
    now rewrite <- (firstn_add_skipn 32 4).
Qed.

Lemma OutPoint_ok_facts (b : list byte) (o : OutPoint) (n : N) :
  OutPoint_from_bytes b = Ok (o, n) -> n = 36 /\ 36 <= len b.
Proof.
  intros H. pose proof (OutPoint_decode_cases b) as D.
  destruct (len b <? 36) eqn:L; [congruence|]. apply N.ltb_ge in L.
  destruct D as [o' [D _]]. rewrite D in H. injection H as _ <-. lia.
Qed.

Lemma OutPoint_no_panic (b : list byte) : OutPoint_from_bytes b <> Panic.
Proof.
  pose proof (OutPoint_decode_cases b) as D.
  destruct (len b <? 36); [congruence|]. destruct D as [o [D _]]. congruence.
Qed.

Lemma mod_wrap (x : N) : 2 ^ 64 <= x < 2 * 2 ^ 64 -> x mod 2 ^ 64 = x - 2 ^ 64.
Proof. intros H. symmetry. apply (N.mod_unique _ _ 1); lia. Qed.

(** [Script::from_bytes] panics exactly when the sum of the prefix width and
    the declared length does not fit in a [usize]. *)
Lemma Script_panic_cases (ovf : bool) (b : list byte) :
  Script_from_bytes ovf b = Panic <->
  exists c w, CompactSize_from_bytes b = Ok (c, w) /\ usize_max < w + cs_value c.
Proof.
  unfold Script_from_bytes.
  destruct (CompactSize_from_bytes b) as [[c w]|e|] eqn:C.
  2: { split; [discriminate | intros (c' & w' & H & _); discriminate H]. }
  2: { exfalso. exact (CompactSize_no_panic b C). }
  destruct (CompactSize_ok_facts _ _ _ C) as [Hw [Hl Hc]]. cbn [bind].
  unfold add_usize. destruct (w + cs_value c <=? usize_max) eqn:A.
  - apply N.leb_le in A. split; [|intros (c' & w' & H & H'); injection H as <- <-; lia].
    cbn [bind]. destruct (len b <? w + cs_value c) eqn:L; [discriminate|].
    apply N.ltb_ge in L. rewrite slice_ok by lia. discriminate.
  - apply N.leb_gt in A. split; [intros _; now exists c, w|intros _].
    destruct ovf; [reflexivity|]. cbn [bind]. unfold usize_max in A.
    rewrite mod_wrap by lia. rewrite ltb_false by lia.
    unfold slice. replace (w <=? w + cs_value c - 2 ^ 64) with false
      by (symmetry; apply N.leb_gt; lia). reflexivity.
Qed.

Lemma Script_ok_facts (ovf : bool) (b : list byte) (s : Script) (n : N) :
  Script_from_bytes ovf b = Ok (s, n) ->
  exists c w, CompactSize_from_bytes b = Ok (c, w)
              /\ len (script_bytes s) = cs_value c /\ n = w + cs_value c
              /\ script_bytes s = firstn (N.to_nat (cs_value c)) (skipn (N.to_nat w) b)
              /\ n <= len b.
Proof.
  unfold Script_from_bytes.
  destruct (CompactSize_from_bytes b) as [[c w]|e|] eqn:C; try discriminate.
  destruct (CompactSize_ok_facts _ _ _ C) as [Hw [Hl Hc]]. cbn [bind].
  unfold add_usize. destruct (w + cs_value c <=? usize_max) eqn:A.
  - cbn [bind]. destruct (len b <? w + cs_value c) eqn:L; [discriminate|].
    apply N.ltb_ge in L. rewrite slice_ok by lia. cbn [bind]. intros H.
    injection H as <- <-. exists c, w. cbn [script_bytes Script_new].
    replace (w + cs_value c - w) with (cs_value c) by lia.
    split; [reflexivity|]. split; [|split; [reflexivity|split; [reflexivity|lia]]].
    unfold len in *. rewrite length_firstn, length_skipn. lia.
  - apply N.leb_gt in A. destruct ovf; [discriminate|]. cbn [bind].
    unfold usize_max in A. rewrite mod_wrap by lia. rewrite ltb_false by lia.
    unfold slice. replace (w <=? w + cs_value c - 2 ^ 64) with false
      by (symmetry; apply N.leb_gt; lia). discriminate.
Qed.

(** [TransactionInput::from_bytes] on a buffer no longer than [isize::MAX]
    panics only when the script decoder panics on the bytes after the
    outpoint. *)
Lemma TransactionInput_panic_script (ovf : bool) (b : list byte) :
  len b <= isize_max -> TransactionInput_from_bytes ovf b = Panic ->
  Script_from_bytes ovf (skipn 36 b) = Panic.
Proof.
  intros Hb. unfold TransactionInput_from_bytes.
  destruct (OutPoint_from_bytes b) as [[o k]|e|] eqn:O; try discriminate;
    [|exfalso; exact (OutPoint_no_panic b O)].
  destruct (OutPoint_ok_facts _ _ _ O) as [-> Hl]. cbn [bind].
  rewrite slice_from_ok by exact Hl. cbn [bind].
  destruct (Script_from_bytes ovf (skipn (N.to_nat 36) b)) as [[s k]|e|] eqn:S;
    try discriminate; [|intros _; exact S].
  destruct (Script_ok_facts _ _ _ _ S) as (c & w & _ & _ & _ & _ & Hk).
  rewrite len_skipn in Hk. unfold isize_max in Hb. cbn [bind].
  rewrite add_usize_ok by (unfold usize_max; lia). cbn [bind].
  rewrite add_usize_ok by (unfold usize_max; lia). cbn [bind].
  destruct (len b <? 36 + k + 4) eqn:L; [discriminate|]. apply N.ltb_ge in L.
  rewrite slice_ok by lia. discriminate.
Qed.

Lemma TransactionInput_ok_bound (ovf : bool) (b : list byte) (i : TransactionInput) (n : N) :
  TransactionInput_from_bytes ovf b = Ok (i, n) -> n <= len b.
Proof.
  unfold TransactionInput_from_bytes.
  destruct (OutPoint_from_bytes b) as [[o k]| |]; try discriminate. cbn [bind].
  destruct (slice_from b k) as [r| |]; try discriminate. cbn [bind].
  destruct (Script_from_bytes ovf r) as [[s k']| |]; try discriminate. cbn [bind].
  destruct (add_usize ovf k k') as [x| |]; try discriminate. cbn [bind].
  destruct (add_usize ovf x 4) as [y| |]; try discriminate. cbn [bind].
  destruct (len b <? y) eqn:L; [discriminate|]. apply N.ltb_ge in L.
  destruct (slice b x y); try discriminate. cbn [bind]. congruence.
Qed.

Lemma BitcoinTransaction_ok_bound (ovf : bool) (b : list byte) (tx : BitcoinTransaction)
  (n : N) :
  BitcoinTransaction_from_bytes ovf b = Ok (tx, n) -> n <= len b.
Proof.
  unfold BitcoinTransaction_from_bytes. destruct (len b <? 4); [discriminate|].
  destruct (slice b 0 4) as [v| |]; try discriminate. cbn [bind].
  destruct (slice_from b 4) as [r| |]; try discriminate. cbn [bind].
  destruct (CompactSize_from_bytes r) as [[c k]| |]; try discriminate. cbn [bind].
  destruct (add_usize ovf k 4) as [x| |]; try discriminate. cbn [bind].
  destruct (read_inputs ovf _ b x []) as [[ins cur]| |]; try discriminate. cbn [bind].
  destruct (add_usize ovf cur 4) as [y| |]; try discriminate. cbn [bind].
  destruct (len b <? y) eqn:L; [discriminate|]. apply N.ltb_ge in L.
  destruct (slice b cur y); try discriminate. cbn [bind]. congruence.
Qed.

(** ** The two overflow modes *)

Lemma agrees_refl {A : Type} (m : outcome A) : agrees m m.
Proof. intros _. reflexivity. Qed.

Lemma bind_agrees {A B : Type} (m1 m2 : outcome A) (k1 k2 : A -> outcome B) :
  agrees m1 m2 -> (forall a, agrees (k1 a) (k2 a)) -> agrees (bind m1 k1) (bind m2 k2).
Proof.
  unfold agrees. intros H1 H2 H. destruct m1 as [a|e|]; [| |contradiction].
  - rewrite H1 by discriminate. cbn [bind] in *. now apply H2.
  - rewrite H1 by discriminate. reflexivity.
Qed.

Lemma add_usize_agrees (a b : N) : agrees (add_usize true a b) (add_usize false a b).
Proof.
  unfold agrees, add_usize. destruct (a + b <=? usize_max); [reflexivity|].
  intros H. now contradiction H.
Qed.

Create HintDb agrees.
#[local] Hint Resolve agrees_refl add_usize_agrees : agrees.

Ltac agrees_tac :=
  repeat first
    [ apply bind_agrees;
        [ solve [eauto with agrees]
        | match goal with
          | |- forall _ : _ * _, _ => intros []
          | |- _ => intros ?
          end ]
    | match goal with
      | |- agrees (if ?c then _ else _) _ => destruct c
      | |- agrees (match ?x with _ => _ end) _ => destruct x
      end
    | solve [eauto with agrees] ].

Lemma Script_agrees (b : list byte) :
  agrees (Script_from_bytes true b) (Script_from_bytes false b).
Proof. unfold Script_from_bytes. agrees_tac. Qed.
#[local] Hint Resolve Script_agrees : agrees.

Lemma TransactionInput_agrees (b : list byte) :
  agrees (TransactionInput_from_bytes true b) (TransactionInput_from_bytes false b).
Proof. unfold TransactionInput_from_bytes. agrees_tac. Qed.
#[local] Hint Resolve TransactionInput_agrees : agrees.

Lemma read_inputs_agrees (n : nat) (b : list byte) (c : N) (acc : list TransactionInput) :
  agrees (read_inputs true n b c acc) (read_inputs false n b c acc).
Proof.
  revert c acc. induction n as [|n IH]; intros c acc; cbn [read_inputs]; agrees_tac.
Qed.
#[local] Hint Resolve read_inputs_agrees : agrees.

Lemma BitcoinTransaction_agrees (b : list byte) :
  agrees (BitcoinTransaction_from_bytes true b) (BitcoinTransaction_from_bytes false b).
Proof. unfold BitcoinTransaction_from_bytes. agrees_tac. Qed.

(** ** Decoded transactions *)

Lemma read_inputs_length (ovf : bool) (n : nat) (b : list byte) (c : N)
  (acc ins : list TransactionInput) (k : N) :
  read_inputs ovf n b c acc = Ok (ins, k) -> length ins = (length acc + n)%nat.
Proof.
  revert c acc. induction n as [|n IH]; intros c acc H; cbn [read_inputs] in H.
  - injection H as <- _. lia.
  - destruct (slice_from b c) as [r| |]; try discriminate. cbn [bind] in H.
    destruct (TransactionInput_from_bytes ovf r) as [[i u]| |]; try discriminate.
    cbn [bind] in H. destruct (add_usize ovf c u) as [c'| |]; try discriminate.
    cbn [bind] in H. apply IH in H. rewrite length_app in H. simpl in H. lia.
Qed.

(** ** Text form of a Txid *)

Lemma lower_hex_cases (c : Ascii.ascii) :
  is_lower_hex_digit c = true ->
  In c (list_ascii_of_string "0123456789abcdef"%string).
Proof.
  unfold is_lower_hex_digit. intros H. apply existsb_exists in H as [x [Hx E]].
  apply Ascii.eqb_eq in E. now subst.
Qed.

Lemma hex_pair_lower (c1 c2 : Ascii.ascii) (i j : nat) (h l : N) :
  is_lower_hex_digit c1 = true -> is_lower_hex_digit c2 = true ->
  hex_val c1 i = inl h -> hex_val c2 j = inl l ->
  hex_digit (Byte.to_N (byte_of (N.lor (N.shiftl h 4) l)) / 16) = c1
  /\ hex_digit (Byte.to_N (byte_of (N.lor (N.shiftl h 4) l)) mod 16) = c2.
Proof.
  intros L1 L2. apply lower_hex_cases in L1, L2. cbn [list_ascii_of_string In] in L1, L2.
  intros H1 H2.
  repeat (destruct L1 as [<-|L1]); try contradiction;
  repeat (destruct L2 as [<-|L2]); try contradiction;
  vm_compute in H1, H2; injection H1 as <-; injection H2 as <-;
  vm_compute; split; reflexivity.
Qed.

Lemma hex_pairs_inverse (n : nat) (s : String.string) (i : nat) (bs : list byte) :
  (String.length s <= n)%nat -> Nat.even (String.length s) = true ->
  hex_pairs s i = HexOk bs ->
  String.length s = (2 * length bs)%nat
  /\ (forallb is_lower_hex_digit (list_ascii_of_string s) = true -> hex_encode bs = s).
Proof.
  revert s i bs. induction n as [|n IH]; intros s i bs Hn He Hp.
  - destruct s; simpl in Hn; [|lia]. injection Hp as <-. split; reflexivity.
  - destruct s as [|c1 [|c2 s']].
    + injection Hp as <-. split; reflexivity.
    + discriminate He.
    + cbn [hex_pairs] in Hp.
      destruct (hex_val c1 (2 * i)) as [h|e] eqn:E1; [|discriminate].
      destruct (hex_val c2 (2 * i + 1)) as [l|e] eqn:E2; [|discriminate].
      destruct (hex_pairs s' (S i)) as [bs'|e] eqn:E3; [|discriminate].
      injection Hp as <-. simpl in Hn, He.
      destruct (IH s' (S i) bs' ltac:(lia) He E3) as [IH1 IH2].
      split; [simpl; lia|].
      cbn [list_ascii_of_string forallb]. intros Hl.
      apply andb_prop in Hl as [L1 Hl]. apply andb_prop in Hl as [L2 Hl].
      destruct (hex_pair_lower c1 c2 _ _ h l L1 L2 E1 E2) as [D1 D2].
      cbn [hex_encode]. now rewrite D1, D2, IH2.
Qed.

Lemma add_usize_lt (ovf : bool) (a b y : N) : add_usize ovf a b = Ok y -> y < 2 ^ 64.
Proof.
  unfold add_usize, usize_max. destruct (a + b <=? 2 ^ 64 - 1) eqn:A.
  - apply N.leb_le in A. intros H. injection H as <-. lia.
  - destruct ovf; [discriminate|]. intros H. injection H as <-.
    apply N.mod_lt. discriminate.
Qed.

Lemma add_usize_result (ovf : bool) (a b y : N) :
  add_usize ovf a b = Ok y -> a + b < 2 * 2 ^ 64 -> y = a + b \/ y + 2 ^ 64 = a + b.
Proof.
  unfold add_usize. destruct (a + b <=? usize_max) eqn:A.
  - intros H _. injection H as <-. now left.
  - destruct ovf; [discriminate|]. intros H Hab. injection H as <-. right.
    apply N.leb_gt in A. unfold usize_max in A. rewrite mod_wrap by lia. lia.
Qed.

Lemma read_inputs_cursor_lt (ovf : bool) (n : nat) (b : list byte) (c : N)
  (acc ins : list TransactionInput) (k : N) :
  c < 2 ^ 64 -> read_inputs ovf n b c acc = Ok (ins, k) -> k < 2 ^ 64.
Proof.
  revert c acc. induction n as [|n IH]; intros c acc Hc H; cbn [read_inputs] in H.
  - injection H as _ <-. exact Hc.
  - destruct (slice_from b c) as [r| |]; try discriminate. cbn [bind] in H.
    destruct (TransactionInput_from_bytes ovf r) as [[i u]| |]; try discriminate.
    cbn [bind] in H. destruct (add_usize ovf c u) as [c'| |] eqn:A; try discriminate.
    cbn [bind] in H. exact (IH _ _ (add_usize_lt _ _ _ _ A) H).
Qed.

Lemma BitcoinTransaction_fields (ovf : bool) (b : list byte) (tx : BitcoinTransaction) (n : N) :
  BitcoinTransaction_from_bytes ovf b = Ok (tx, n) ->
  version tx = from_le_bytes (firstn 4 b)
  /\ 4 <= n /\ lock_time tx = from_le_bytes (firstn 4 (skipn (N.to_nat (n - 4)) b))
  /\ exists w, CompactSize_from_bytes (skipn 4 b)
               = Ok (CompactSize_new (N.of_nat (length (inputs tx))), w).
Proof.
  unfold BitcoinTransaction_from_bytes.
  destruct (len b <? 4) eqn:L; [discriminate|]. apply N.ltb_ge in L.
  rewrite slice_ok by lia. rewrite slice_from_ok by lia. cbn [bind].
  destruct (CompactSize_from_bytes (skipn (N.to_nat 4) b)) as [[c k]| |] eqn:C;
    try discriminate. cbn [bind].
  destruct (add_usize ovf k 4) as [x| |] eqn:X; try discriminate. cbn [bind].
  destruct (read_inputs ovf (N.to_nat (cs_value c)) b x []) as [[ins cur]| |] eqn:R;
    try discriminate. cbn [bind].
  pose proof (read_inputs_cursor_lt _ _ _ _ _ _ _ (add_usize_lt _ _ _ _ X) R) as Hcur.
  pose proof (read_inputs_length _ _ _ _ _ _ _ R) as Hlen. simpl in Hlen.
  destruct (add_usize ovf cur 4) as [y| |] eqn:Y; try discriminate. cbn [bind].
  destruct (len b <? y) eqn:L2; [discriminate|].
  destruct (slice b cur y) as [lt| |] eqn:S; try discriminate. cbn [bind].
  assert (Ey : y = cur + 4).
  { destruct (add_usize_result _ _ _ _ Y ltac:(lia)) as [E|E]; [exact E|].
    unfold slice in S. replace (cur <=? y) with false in S
      by (symmetry; apply N.leb_gt; lia). discriminate. }
  subst y. intros H. injection H as <- <-. cbn [version lock_time inputs BitcoinTransaction_new].
  split; [reflexivity|]. split; [lia|].
  split.
  - unfold slice in S. destruct andb; [|discriminate]. injection S as <-.
    f_equal. f_equal; f_equal; lia.
  - exists k. rewrite Hlen, N2Nat.id. now destruct c.
Qed.

(** * Properties of the code beyond the spec *)

(** X1: every [u64] round-trips through the CompactSize encoding, trailing
    bytes included, and the encoding is 1, 3, 5 or 9 bytes long as the
    magnitude requires. *)
Theorem X1_CompactSize_encode_decode (v : N) (rest : list byte) :
  v < 2 ^ 64 ->
  len (CompactSize_to_bytes (CompactSize_new v)) = width_table v
  /\ CompactSize_from_bytes (CompactSize_to_bytes (CompactSize_new v) ++ rest)
     = Ok (CompactSize_new v, width_table v).
Proof.
  intros Hv. split; [now apply CompactSize_to_bytes_length | now apply CompactSize_roundtrip].
Qed.

(** X2: [CompactSize::from_bytes] never panics: on an empty buffer, or one
    shorter than the width its first byte announces (1, 3, 5 or 9), it fails
    with [InsufficientBytes]; otherwise it succeeds, consuming exactly that
    width, with a value below [2^64]. *)
Theorem X2_CompactSize_decode_outcome (b : list byte) :
  match b with
  | [] => CompactSize_from_bytes b = Err InsufficientBytes
  | b0 :: _ =>
    if len b <? cs_prefix_width b0 then CompactSize_from_bytes b = Err InsufficientBytes
    else exists c, CompactSize_from_bytes b = Ok (c, cs_prefix_width b0)
                   /\ cs_value c < 2 ^ 64
  end.
Proof. exact (CompactSize_decode_cases b). Qed.

(** X3: an outpoint encodes to 36 bytes and decodes back from them, trailing
    bytes included. *)
Theorem X3_OutPoint_encode_decode (o : OutPoint) (rest : list byte) :
  wf_outpoint o ->
  len (OutPoint_to_bytes o) = 36
  /\ OutPoint_from_bytes (OutPoint_to_bytes o ++ rest) = Ok (o, 36).
Proof.
  intros Hw. split; [now apply OutPoint_to_bytes_length | now apply OutPoint_roundtrip].
Qed.

(** X4: [OutPoint::from_bytes] never panics: it fails with
    [InsufficientBytes] exactly on buffers shorter than 36 bytes; otherwise
    it consumes 36 bytes and returns a well-formed outpoint whose encoding is
    the first 36 bytes of the buffer. *)
Theorem X4_OutPoint_decode_outcome (b : list byte) :
  if len b <? 36 then OutPoint_from_bytes b = Err InsufficientBytes
  else exists o, OutPoint_from_bytes b = Ok (o, 36) /\ wf_outpoint o
                 /\ OutPoint_to_bytes o = firstn 36 b.
Proof. exact (OutPoint_decode_cases b). Qed.

(** X5: a script encodes to its CompactSize length prefix followed by its
    bytes, and decodes back from that encoding, trailing bytes included,
    with and without overflow checks. *)
Theorem X5_Script_encode_decode (ovf : bool) (s : Script) (rest : list byte) :
  wf_script s ->
  len (Script_to_bytes s) = width_table (len (script_bytes s)) + len (script_bytes s)
  /\ Script_from_bytes ovf (Script_to_bytes s ++ rest) = Ok (s, len (Script_to_bytes s)).
Proof.
  intros Hw. split; [now apply Script_to_bytes_length | now apply Script_roundtrip].
Qed.

(** X6: [Script::from_bytes] panics exactly when its length prefix decodes
    to a width [w] and a declared length [d] with [w + d] beyond
    [usize::MAX], with or without overflow checks. *)
Theorem X6_Script_decode_panics_iff_overflow (ovf : bool) (b : list byte) :
  Script_from_bytes ovf b = Panic <->
  exists c w, CompactSize_from_bytes b = Ok (c, w) /\ usize_max < w + cs_value c.
Proof. exact (Script_panic_cases ovf b). Qed.

(** X7: a script decoded from a buffer has exactly the declared length; its
    bytes are the ones following the length prefix, and the count consumed
    is the prefix width plus the declared length, at most the buffer's
    length. *)
Theorem X7_Script_decode_result (ovf : bool) (b : list byte) (s : Script) (n : N) :
  Script_from_bytes ovf b = Ok (s, n) ->
  exists c w, CompactSize_from_bytes b = Ok (c, w)
              /\ len (script_bytes s) = cs_value c /\ n = w + cs_value c
              /\ script_bytes s = firstn (N.to_nat (cs_value c)) (skipn (N.to_nat w) b)
              /\ n <= len b.
Proof. exact (Script_ok_facts ovf b s n). Qed.

(** X8: a transaction input encodes to 36 outpoint bytes, its script
    encoding and 4 sequence bytes, and decodes back from that encoding,
    trailing bytes included. *)
Theorem X8_TransactionInput_encode_decode (ovf : bool) (i : TransactionInput)
  (rest : list byte) :
  wf_input i ->
  len (TransactionInput_to_bytes i) = 36 + len (Script_to_bytes (script_sig i)) + 4
  /\ TransactionInput_from_bytes ovf (TransactionInput_to_bytes i ++ rest)
     = Ok (i, len (TransactionInput_to_bytes i)).
Proof.
  intros Hw. split;
    [now apply TransactionInput_to_bytes_length | now apply TransactionInput_roundtrip].
Qed.

(** X9: on a buffer of at most [isize::MAX] bytes, [TransactionInput::from_bytes]
    panics only when [Script::from_bytes] panics on the bytes after the
    36-byte outpoint. *)
Theorem X9_TransactionInput_panics_only_in_script (ovf : bool) (b : list byte) :
  len b <= isize_max -> TransactionInput_from_bytes ovf b = Panic ->
  Script_from_bytes ovf (skipn 36 b) = Panic.
Proof. exact (TransactionInput_panic_script ovf b). Qed.

(** X10: no decoder reports consuming more bytes than the buffer holds. *)
Theorem X10_decoders_consume_within_buffer (ovf : bool) (b : list byte) :
  (forall c n, CompactSize_from_bytes b = Ok (c, n) -> n <= len b)
  /\ (forall o n, OutPoint_from_bytes b = Ok (o, n) -> n <= len b)
  /\ (forall s n, Script_from_bytes ovf b = Ok (s, n) -> n <= len b)
  /\ (forall i n, TransactionInput_from_bytes ovf b = Ok (i, n) -> n <= len b)
  /\ (forall tx n, BitcoinTransaction_from_bytes ovf b = Ok (tx, n) -> n <= len b).
Proof.
  split; [|split; [|split; [|split]]]; intros x n H.
  - now apply CompactSize_ok_facts in H.
  - apply OutPoint_ok_facts in H. lia.
  - now destruct (Script_ok_facts _ _ _ _ H) as (c & w & _ & _ & _ & _ & Hn).
  - exact (TransactionInput_ok_bound _ _ _ _ H).
  - exact (BitcoinTransaction_ok_bound _ _ _ _ H).
Qed.

(** X11: no binary decoder ever returns [InvalidFormat]. *)
Theorem X11_decoders_never_invalid_format (ovf : bool) (b : list byte) :
  CompactSize_from_bytes b <> Err InvalidFormat
  /\ OutPoint_from_bytes b <> Err InvalidFormat
  /\ Script_from_bytes ovf b <> Err InvalidFormat
  /\ TransactionInput_from_bytes ovf b <> Err InvalidFormat
  /\ BitcoinTransaction_from_bytes ovf b <> Err InvalidFormat.
Proof.
  split; [apply CompactSize_not_invalid|]. split; [apply OutPoint_not_invalid|].
  split; [apply Script_not_invalid|]. split; [apply TransactionInput_not_invalid|].
  apply BitcoinTransaction_not_invalid.
Qed.

(** X12: whenever a decode does not panic in a build with overflow checks,
    a build without them returns the same result. *)
Theorem X12_decoders_agree_across_overflow_modes (b : list byte) :
  (Script_from_bytes true b <> Panic ->
   Script_from_bytes false b = Script_from_bytes true b)
  /\ (TransactionInput_from_bytes true b <> Panic ->
      TransactionInput_from_bytes false b = TransactionInput_from_bytes true b)
  /\ (BitcoinTransaction_from_bytes true b <> Panic ->
      BitcoinTransaction_from_bytes false b = BitcoinTransaction_from_bytes true b).
Proof.
  split; [apply Script_agrees|]. split; [apply TransactionInput_agrees|].
  apply BitcoinTransaction_agrees.
Qed.

(** X13: a decoded transaction takes its version from the first 4 bytes of
    the buffer and its lock_time from the last 4 bytes consumed, and has as
    many inputs as the CompactSize count after the version declares. *)
Theorem X13_BitcoinTransaction_decode_fields (ovf : bool) (b : list byte)
  (tx : BitcoinTransaction) (n : N) :
  BitcoinTransaction_from_bytes ovf b = Ok (tx, n) ->
  version tx = from_le_bytes (firstn 4 b)
  /\ 4 <= n /\ lock_time tx = from_le_bytes (firstn 4 (skipn (N.to_nat (n - 4)) b))
  /\ exists w, CompactSize_from_bytes (skipn 4 b)
               = Ok (CompactSize_new (N.of_nat (length (inputs tx))), w).
Proof. exact (BitcoinTransaction_fields ovf b tx n). Qed.

(** X14: the encodings are injective on well-formed values: two outpoints,
    scripts, inputs or transactions with the same bytes are equal. *)
Theorem X14_encodings_injective :
  (forall o1 o2, wf_outpoint o1 -> wf_outpoint o2 ->
     OutPoint_to_bytes o1 = OutPoint_to_bytes o2 -> o1 = o2)
  /\ (forall s1 s2, wf_script s1 -> wf_script s2 ->
     Script_to_bytes s1 = Script_to_bytes s2 -> s1 = s2)
  /\ (forall i1 i2, wf_input i1 -> wf_input i2 ->
     TransactionInput_to_bytes i1 = TransactionInput_to_bytes i2 -> i1 = i2)
  /\ (forall t1 t2, wf_tx t1 -> wf_tx t2 ->
     BitcoinTransaction_to_bytes t1 = BitcoinTransaction_to_bytes t2 -> t1 = t2).
Proof.
  split; [|split; [|split]]; intros x1 x2 H1 H2 E.
  - pose proof (OutPoint_roundtrip x1 [] H1) as R1.
    pose proof (OutPoint_roundtrip x2 [] H2) as R2. congruence.
  - pose proof (Script_roundtrip true x1 [] H1) as R1.
    pose proof (Script_roundtrip true x2 [] H2) as R2. congruence.
  - pose proof (TransactionInput_roundtrip true x1 [] H1) as R1.
    pose proof (TransactionInput_roundtrip true x2 [] H2) as R2. congruence.
  - assert (B : forall t, wf_tx t -> len (BitcoinTransaction_to_bytes t ++ []) <= usize_max).
    { intros t Ht. rewrite app_nil_r. destruct Ht as (_ & _ & _ & Hl).
      unfold isize_max in Hl. unfold usize_max. lia. }
    pose proof (BitcoinTransaction_roundtrip true x1 [] H1 (B x1 H1)) as R1.
    pose proof (BitcoinTransaction_roundtrip true x2 [] H2 (B x2 H2)) as R2.
    rewrite E in R1. congruence.
Qed.

(** X15: the text form of a 32-byte txid reads back as the same txid. *)
Theorem X15_Txid_text_roundtrip (t : Txid) :
  wf_txid t -> Txid_deserialize (Txid_serialize t) = DeOk t.
Proof.
  intros Hw. destruct t as [bs]. unfold wf_txid in Hw. cbn [txid_bytes] in Hw.
  unfold Txid_deserialize, Txid_serialize. cbn [txid_bytes].
  rewrite hex_decode_encode, Hw. reflexivity.
Qed.

(** X16: a string accepted as a txid has exactly 64 characters and gives 32
    bytes; when its digits are lowercase, serializing the txid gives back
    the same string. *)
Theorem X16_Txid_accepted_text (s : String.string) (t : Txid) :
  Txid_deserialize s = DeOk t ->
  wf_txid t /\ String.length s = 64%nat
  /\ (forallb is_lower_hex_digit (list_ascii_of_string s) = true -> Txid_serialize t = s).
Proof.
  unfold Txid_deserialize, hex_decode.
  destruct (Nat.odd (String.length s)) eqn:O; [discriminate|].
  destruct (hex_pairs s 0) as [bs|e] eqn:P; [|discriminate].
  destruct (Nat.eqb (length bs) 32) eqn:L; [|discriminate]. cbn [negb].
  intros H. injection H as <-. apply PeanoNat.Nat.eqb_eq in L.
  assert (Ev : Nat.even (String.length s) = true)
    by (rewrite <- PeanoNat.Nat.negb_odd, O; reflexivity).
  destruct (hex_pairs_inverse (String.length s) s 0 bs (le_n _) Ev P) as [H1 H2].
  split; [exact L|]. split; [lia|]. exact H2.
Qed.

(** * Instances of the properties at concrete values *)

Lemma example_outpoint_wf : wf_outpoint (previous_output example_input).
Proof. split; [reflexivity | vm_compute; reflexivity]. Qed.

Lemma example_script_wf : wf_script (script_sig example_input).
Proof. vm_compute. discriminate. Qed.

Lemma example_input_wf : wf_input example_input.
Proof.
  split; [exact example_outpoint_wf|]. split; [exact example_script_wf|].
  vm_compute. reflexivity.
Qed.

Lemma example_tx_wf : wf_tx example_tx.
Proof.
  split; [vm_compute; reflexivity|]. split; [constructor; [exact example_input_wf|constructor]|].
  split; [vm_compute; reflexivity | vm_compute; discriminate].
Qed.

Lemma X1_CompactSize_encode_decode_witness :
  300 < 2 ^ 64
  /\ len (CompactSize_to_bytes (CompactSize_new 300)) = width_table 300
  /\ CompactSize_from_bytes (CompactSize_to_bytes (CompactSize_new 300) ++ [x07])
     = Ok (CompactSize_new 300, width_table 300).
Proof.
  assert (H : 300 < 2 ^ 64) by (vm_compute; reflexivity).
  split; [exact H | exact (X1_CompactSize_encode_decode 300 [x07] H)].
Defined.

Lemma X2_CompactSize_decode_outcome_witness :
  CompactSize_from_bytes [xfd; x01] = Err InsufficientBytes.
Proof. exact (X2_CompactSize_decode_outcome [xfd; x01]). Defined.

Lemma X3_OutPoint_encode_decode_witness :
  wf_outpoint (previous_output example_input)
  /\ len (OutPoint_to_bytes (previous_output example_input)) = 36
  /\ OutPoint_from_bytes (OutPoint_to_bytes (previous_output example_input) ++ [x07])
     = Ok (previous_output example_input, 36).
Proof.
  split; [exact example_outpoint_wf|].
  exact (X3_OutPoint_encode_decode _ [x07] example_outpoint_wf).
Defined.

Lemma X4_OutPoint_decode_outcome_witness :
  exists o, OutPoint_from_bytes (repeat x00 36) = Ok (o, 36) /\ wf_outpoint o
            /\ OutPoint_to_bytes o = firstn 36 (repeat x00 36).
Proof. exact (X4_OutPoint_decode_outcome (repeat x00 36)). Defined.

Lemma X5_Script_encode_decode_witness :
  wf_script (script_sig example_input)
  /\ len (Script_to_bytes (script_sig example_input)) = 2
  /\ Script_from_bytes true (Script_to_bytes (script_sig example_input) ++ [x07])
     = Ok (script_sig example_input, 2).
Proof.
  split; [exact example_script_wf|].
  exact (X5_Script_encode_decode true _ [x07] example_script_wf).
Defined.

Lemma X6_Script_decode_panics_iff_overflow_witness :
  Script_from_bytes false overflow_script_input = Panic.
Proof.
  apply (proj2 (X6_Script_decode_panics_iff_overflow false overflow_script_input)).
  exists (CompactSize_new (2 ^ 64 - 1)), 9. split; vm_compute; reflexivity.
Defined.

Lemma X7_Script_decode_result_witness :
  Script_from_bytes true [x01; x51; x00] = Ok (Script_new [x51], 2)
  /\ exists c w, CompactSize_from_bytes [x01; x51; x00] = Ok (c, w)
                 /\ len [x51] = cs_value c /\ 2 = w + cs_value c
                 /\ [x51] = firstn (N.to_nat (cs_value c)) (skipn (N.to_nat w) [x01; x51; x00])
                 /\ 2 <= len [x01; x51; x00].
Proof.
  assert (H : Script_from_bytes true [x01; x51; x00] = Ok (Script_new [x51], 2))
    by (vm_compute; reflexivity).
  split; [exact H | exact (X7_Script_decode_result true _ _ _ H)].
Defined.

Lemma X8_TransactionInput_encode_decode_witness :
  wf_input example_input
  /\ len (TransactionInput_to_bytes example_input)
     = 36 + len (Script_to_bytes (script_sig example_input)) + 4
  /\ TransactionInput_from_bytes false (TransactionInput_to_bytes example_input ++ [x07])
     = Ok (example_input, len (TransactionInput_to_bytes example_input)).
Proof.
  split; [exact example_input_wf|].
  exact (X8_TransactionInput_encode_decode false _ [x07] example_input_wf).
Defined.

Lemma X9_TransactionInput_panics_only_in_script_witness :
  len (repeat x00 36 ++ overflow_script_input) <= isize_max
  /\ TransactionInput_from_bytes true (repeat x00 36 ++ overflow_script_input) = Panic
  /\ Script_from_bytes true (skipn 36 (repeat x00 36 ++ overflow_script_input)) = Panic.
Proof.
  assert (H1 : len (repeat x00 36 ++ overflow_script_input) <= isize_max)
    by (vm_compute; discriminate).
  assert (H2 : TransactionInput_from_bytes true (repeat x00 36 ++ overflow_script_input) = Panic)
    by (vm_compute; reflexivity).
  split; [exact H1|]. split; [exact H2|].
  exact (X9_TransactionInput_panics_only_in_script true _ H1 H2).
Defined.

Lemma X10_decoders_consume_within_buffer_witness :
  CompactSize_from_bytes [x00] = Ok (CompactSize_new 0, 1) /\ 1 <= len [x00].
Proof.
  assert (H : CompactSize_from_bytes [x00] = Ok (CompactSize_new 0, 1))
    by (vm_compute; reflexivity).
  split; [exact H|].
  exact (proj1 (X10_decoders_consume_within_buffer true [x00]) _ _ H).
Defined.

Lemma X11_decoders_never_invalid_format_witness :
  BitcoinTransaction_from_bytes true [] <> Err InvalidFormat.
Proof. exact (proj2 (proj2 (proj2 (proj2 (X11_decoders_never_invalid_format true []))))). Defined.

Lemma X12_decoders_agree_across_overflow_modes_witness :
  BitcoinTransaction_from_bytes true (BitcoinTransaction_to_bytes example_tx) <> Panic
  /\ BitcoinTransaction_from_bytes false (BitcoinTransaction_to_bytes example_tx)
     = BitcoinTransaction_from_bytes true (BitcoinTransaction_to_bytes example_tx).
Proof.
  assert (H : BitcoinTransaction_from_bytes true (BitcoinTransaction_to_bytes example_tx) <> Panic)
    by (vm_compute; discriminate).
  split; [exact H|].
  exact (proj2 (proj2 (X12_decoders_agree_across_overflow_modes _)) H).
Defined.

Lemma X13_BitcoinTransaction_decode_fields_witness :
  BitcoinTransaction_from_bytes true (BitcoinTransaction_to_bytes example_tx)
  = Ok (example_tx, 51)
  /\ version example_tx = from_le_bytes (firstn 4 (BitcoinTransaction_to_bytes example_tx))
  /\ 4 <= 51
  /\ lock_time example_tx
     = from_le_bytes (firstn 4 (skipn (N.to_nat (51 - 4)) (BitcoinTransaction_to_bytes example_tx)))
  /\ exists w, CompactSize_from_bytes (skipn 4 (BitcoinTransaction_to_bytes example_tx))
               = Ok (CompactSize_new (N.of_nat (length (inputs example_tx))), w).
Proof.
  assert (H : BitcoinTransaction_from_bytes true (BitcoinTransaction_to_bytes example_tx)
              = Ok (example_tx, 51)) by (vm_compute; reflexivity).
  split; [exact H | exact (X13_BitcoinTransaction_decode_fields true _ _ _ H)].
Defined.

Lemma X14_encodings_injective_witness :
  wf_tx example_tx /\ example_tx = example_tx.
Proof.
  split; [exact example_tx_wf|].
  exact (proj2 (proj2 (proj2 X14_encodings_injective)) _ _ example_tx_wf example_tx_wf eq_refl).
Defined.

Lemma X15_Txid_text_roundtrip_witness :
  wf_txid (txid (previous_output example_input))
  /\ Txid_deserialize (Txid_serialize (txid (previous_output example_input)))
     = DeOk (txid (previous_output example_input)).
Proof.
  assert (H : wf_txid (txid (previous_output example_input))) by reflexivity.
  split; [exact H | exact (X15_Txid_text_roundtrip _ H)].
Defined.

Lemma X16_Txid_accepted_text_witness :
  Txid_deserialize (hex_encode (repeat x01 32)) = DeOk (mkTxid (repeat x01 32))
  /\ Txid_serialize (mkTxid (repeat x01 32)) = hex_encode (repeat x01 32).
Proof.
  assert (H : Txid_deserialize (hex_encode (repeat x01 32)) = DeOk (mkTxid (repeat x01 32)))
    by (vm_compute; reflexivity).
  split; [exact H|].
  destruct (X16_Txid_accepted_text _ _ H) as [_ [_ H3]].
  apply H3. vm_compute. reflexivity.
Defined.
